(** * Terminal environment variable collections: merge, apply and diff

    A shallow embedding of
    [src/vs/platform/terminal/common/environmentVariableCollection.ts]:
    the constructor of [MergedEnvironmentVariableCollection], its methods
    [applyToProcessEnvironment] and [diff], and the two private helpers
    [getMissingMutatorsFromArray] and [getChangedMutatorsFromArray].

    Conventions of the embedding.
    - A JavaScript [Map] is insertion ordered; it is an association list
      whose [set] overwrites in place or appends at the end ([JsMap]).
    - The environment [IProcessEnvironment] is a plain object read through
      [Object.keys] and [env[k]]; it is the same association list, with
      values [option string] because a property may hold [undefined].
      Property names on [Object.prototype] are outside the model.
    - Helper [Set]s and [Map]s that are only looked up are stdpp's [gset]
      and [gmap].
    - The asynchronous resolver is awaited one call at a time, so it is a
      state-passing function that may reject. *)

From Stdlib Require Import Ascii String ZArith.
From stdpp Require Import base option list strings gmap.

Local Open Scope string_scope.
Local Open Scope list_scope.

(** ** Insertion-ordered maps with string keys *)

Module JsMap.

Definition t (V : Type) : Type := list (string * V).

Definition empty {V : Type} : t V := [].

(** [map.get(k)]: [None] stands for [undefined]. *)
Fixpoint get {V : Type} (m : t V) (k : string) : option V :=
  match m with
  | [] => None
  | (k', v) :: m' => if decide (k = k') then Some v else get m' k
  end.

(** [map.set(k, v)]: an existing key keeps its position, a new key goes
    last. *)
Fixpoint set {V : Type} (m : t V) (k : string) (v : V) : t V :=
  match m with
  | [] => [(k, v)]
  | (k', v') :: m' =>
      if decide (k = k') then (k, v) :: m' else (k', v') :: set m' k v
  end.

(** [map.keys()] and [Object.keys(obj)]. *)
Definition keys {V : Type} (m : t V) : list string := map fst m.

(** [map.size]. *)
Definition size {V : Type} (m : t V) : nat := length m.

End JsMap.

(** ** Data model *)

(** [EnvironmentVariableMutatorType], declared in [environmentVariable.ts]
    (not part of the sources at hand); the three members are the ones the
    [switch] of [applyToProcessEnvironment] distinguishes. *)
Inductive EnvironmentVariableMutatorType : Type :=
  | Replace
  | Append
  | Prepend.

#[global] Instance EnvironmentVariableMutatorType_eq_dec :
  EqDecision EnvironmentVariableMutatorType.
Proof. solve_decision. Defined.

(** [IWorkspaceFolder], reduced to the two members the code reads:
    [uri.fsPath] and [index]. *)
Record IWorkspaceFolder : Type := {
  fsPath : string;
  index : Z
}.

#[global] Instance IWorkspaceFolder_eq_dec : EqDecision IWorkspaceFolder.
Proof. solve_decision. Defined.

(** [EnvironmentVariableScope]: [{ workspaceFolder?: IWorkspaceFolder }]. *)
Record EnvironmentVariableScope : Type := {
  workspaceFolder : option IWorkspaceFolder
}.

#[global] Instance EnvironmentVariableScope_eq_dec :
  EqDecision EnvironmentVariableScope.
Proof. solve_decision. Defined.

(** [IEnvironmentVariableMutator]: what an extension contributes. *)
Module Mutator.
Record t : Type := mk {
  variable : string;
  value : string;
  type : EnvironmentVariableMutatorType;
  scope : option EnvironmentVariableScope
}.
End Mutator.

(** [IExtensionOwnedEnvironmentVariableMutator]: the object literal the
    constructor unshifts into a variable's sequence. *)
Module Owned.
Record t : Type := mk {
  extensionIdentifier : string;
  value : string;
  type : EnvironmentVariableMutatorType;
  scope : option EnvironmentVariableScope;
  variable : string
}.
End Owned.

#[global] Instance Mutator_eq_dec : EqDecision Mutator.t.
Proof. solve_decision. Defined.

#[global] Instance Owned_eq_dec : EqDecision Owned.t.
Proof. solve_decision. Defined.

(** [IEnvironmentVariableCollection]: [{ map: ReadonlyMap<string,
    IEnvironmentVariableMutator> }].  The constructor reads the variable
    from the mutator, never from the key. *)
Record IEnvironmentVariableCollection : Type := {
  map_ : JsMap.t Mutator.t
}.

(** [variableMap: Map<string, IExtensionOwnedEnvironmentVariableMutator[]>]. *)
Definition VariableMap : Type := JsMap.t (list Owned.t).

(** ** The constructor of [MergedEnvironmentVariableCollection] *)

(** [mutator.scope?.workspaceFolder]. *)
Definition scopeFolder (s : option EnvironmentVariableScope)
  : option IWorkspaceFolder :=
  match s with
  | Some sc => workspaceFolder sc
  | None => None
  end.

(** Lines 39-46: the mutator is skipped when the merge has an owning
    workspace, the mutator names a folder, and the two paths differ. *)
Definition scopedOut (owningWorkspace : option IWorkspaceFolder)
    (mutator : Mutator.t) : bool :=
  match owningWorkspace with
  | Some ow =>
      match scopeFolder (Mutator.scope mutator) with
      | Some wf => bool_decide (fsPath wf ≠ fsPath ow)
      | None => false
      end
  | None => false
  end.

(** Line 54: [entry.length > 0 && entry[0].type === Replace]. *)
Definition firstIsReplace (entry : list Owned.t) : bool :=
  match entry with
  | e :: _ => bool_decide (Owned.type e = Replace)
  | [] => false
  end.

(** Lines 60-66: the object literal built from the mutator. *)
Definition owned (extensionIdentifier : string) (mutator : Mutator.t)
  : Owned.t :=
  Owned.mk extensionIdentifier (Mutator.value mutator) (Mutator.type mutator)
    (Mutator.scope mutator) (Mutator.variable mutator).

(** One turn of the [while] loop (lines 36-68).  The array [entry] lives in
    the map, so [unshift] is a [set] of the longer array at the same key. *)
Definition mergeMutator (owningWorkspace : option IWorkspaceFolder)
    (extensionIdentifier : string) (variableMap : VariableMap)
    (mutator : Mutator.t) : VariableMap :=
  let variable := Mutator.variable mutator in
  if scopedOut owningWorkspace mutator then variableMap
  else
    let '(variableMap, entry) :=
      match JsMap.get variableMap variable with
      | Some entry => (variableMap, entry)
      | None => (JsMap.set variableMap variable [], [])
      end in
    if firstIsReplace entry then variableMap
    else JsMap.set variableMap variable
           (owned extensionIdentifier mutator :: entry).

(** The body of [collections.forEach]: all mutators of one collection, in
    the order of [collection.map.entries()]. *)
Definition mergeCollection (owningWorkspace : option IWorkspaceFolder)
    (variableMap : VariableMap)
    (c : string * IEnvironmentVariableCollection) : VariableMap :=
  fold_left (mergeMutator owningWorkspace (fst c))
    (map snd (map_ (snd c))) variableMap.

(** [new MergedEnvironmentVariableCollection(collections, owningWorkspace)]:
    the resulting [variableMap]. *)
Definition mergedVariableMap
    (collections : JsMap.t IEnvironmentVariableCollection)
    (owningWorkspace : option IWorkspaceFolder) : VariableMap :=
  fold_left (mergeCollection owningWorkspace) collections JsMap.empty.

(** ** [applyToProcessEnvironment] *)

(** [IProcessEnvironment]: [{ [key: string]: string | undefined }]. *)
Definition IProcessEnvironment : Type := JsMap.t (option string).

(** [String.prototype.toLowerCase] on ASCII names: [A]-[Z] go to [a]-[z],
    every other character is kept. *)
Definition lowerAscii (c : ascii) : ascii :=
  let n := nat_of_ascii c in
  if (65 <=? n)%nat && (n <=? 90)%nat then ascii_of_nat (n + 32) else c.

Fixpoint toLowerCase (s : string) : string :=
  match s with
  | EmptyString => EmptyString
  | String c s' => String (lowerAscii c) (toLowerCase s')
  end.

(** Lines 76-77: [Object.keys(env).forEach(e => lower[e.toLowerCase()] = e)].
    A later key overwrites an earlier one with the same lower-case form. *)
Definition lowerToActualVariableNames (env : IProcessEnvironment)
  : gmap string string :=
  fold_left (fun acc e => <[toLowerCase e := e]> acc) (JsMap.keys env) ∅.

(** Line 80.  [x || variable] falls back to [variable] when [x] is
    [undefined] or the empty string. *)
Definition actualVariableName (lower : option (gmap string string))
    (variable : string) : string :=
  match lower with
  | Some names =>
      match names !! toLowerCase variable with
      | Some actual => if decide (actual = "") then variable else actual
      | None => variable
      end
  | None => variable
  end.

(** [env[k] || '']. *)
Definition envOrEmpty (env : IProcessEnvironment) (k : string) : string :=
  match JsMap.get env k with
  | Some (Some s) => s
  | _ => ""
  end.

(** The [switch] of lines 88-98. *)
Definition applyMutator (actualVariable : string)
    (type : EnvironmentVariableMutatorType) (value : string)
    (env : IProcessEnvironment) : IProcessEnvironment :=
  match type with
  | Append =>
      JsMap.set env actualVariable (Some (envOrEmpty env actualVariable +:+ value))
  | Prepend =>
      JsMap.set env actualVariable (Some (value +:+ envOrEmpty env actualVariable))
  | Replace => JsMap.set env actualVariable (Some value)
  end.

(** How the promise returned by [applyToProcessEnvironment] settles. *)
Inductive Settled : Type :=
  | Fulfilled
  | Rejected.

#[global] Instance Settled_eq_dec : EqDecision Settled.
Proof. solve_decision. Defined.

Section Apply.

(** The state the resolver may read and change between two calls. *)
Context {R : Type}.

(** [type VariableResolver = (str: string) => Promise<string>]: [None]
    is a rejected promise. *)
Definition VariableResolver : Type := R -> string -> option string * R.

(** Line 82: [variableResolver ? await variableResolver(v) : v]. *)
Definition resolveValue (variableResolver : option VariableResolver)
    (r : R) (v : string) : option string * R :=
  match variableResolver with
  | Some f => f r v
  | None => (Some v, r)
  end.

(** The inner [for] loop (lines 81-99).  A rejected [await] leaves the
    loop with the environment as it is at that moment. *)
Fixpoint applyMutators (variableResolver : option VariableResolver)
    (actualVariable : string) (mutators : list Owned.t)
    (env : IProcessEnvironment) (r : R)
  : Settled * IProcessEnvironment * R :=
  match mutators with
  | [] => (Fulfilled, env, r)
  | mutator :: rest =>
      match resolveValue variableResolver r (Owned.value mutator) with
      | (Some value, r') =>
          applyMutators variableResolver actualVariable rest
            (applyMutator actualVariable (Owned.type mutator) value env) r'
      | (None, r') => (Rejected, env, r')
      end
  end.

(** The outer [for] loop (lines 79-100). *)
Fixpoint applyVariables (variableResolver : option VariableResolver)
    (lower : option (gmap string string)) (variableMap : VariableMap)
    (env : IProcessEnvironment) (r : R)
  : Settled * IProcessEnvironment * R :=
  match variableMap with
  | [] => (Fulfilled, env, r)
  | (variable, mutators) :: rest =>
      match applyMutators variableResolver
              (actualVariableName lower variable) mutators env r with
      | (Fulfilled, env', r') =>
          applyVariables variableResolver lower rest env' r'
      | rejected => rejected
      end
  end.

(** [merged.applyToProcessEnvironment(env, variableResolver)]: how the
    promise settles, the environment object afterwards, and the state of
    the resolver.  [isWindows] is the platform flag. *)
Definition applyToProcessEnvironment (isWindows : bool)
    (variableMap : VariableMap) (env : IProcessEnvironment)
    (variableResolver : option VariableResolver) (r : R)
  : Settled * IProcessEnvironment * R :=
  let lower :=
    if isWindows then Some (lowerToActualVariableNames env) else None in
  applyVariables variableResolver lower variableMap env r.

End Apply.

(** A call without resolver. *)
Definition applyWithoutResolver (isWindows : bool) (variableMap : VariableMap)
    (env : IProcessEnvironment) : Settled * IProcessEnvironment :=
  fst (applyToProcessEnvironment (R := unit) isWindows variableMap env None tt).

(** ** [diff] and its helpers *)

(** [array.forEach(m => { if (keep m) result.push(m) })]. *)
Definition pushWhen {A : Type} (keep : A -> bool) (result : list A) (m : A)
  : list A :=
  if keep m then result ++ [m] else result.

(** [result.length === 0 ? undefined : result]. *)
Definition undefinedIfEmpty {A : Type} (result : list A) : option (list A) :=
  match result with
  | [] => None
  | _ => Some result
  end.

(** Lines 143-165. *)
Definition getMissingMutatorsFromArray (current : list Owned.t)
    (other : option (list Owned.t)) : option (list Owned.t) :=
  match other with
  | None => Some current
  | Some other =>
      let otherMutatorExtensions : gset string :=
        fold_left (fun s m => {[Owned.extensionIdentifier m]} ∪ s) other ∅ in
      let result :=
        fold_left
          (pushWhen (fun mutator =>
             bool_decide
               (Owned.extensionIdentifier mutator ∉ otherMutatorExtensions)))
          current [] in
      undefinedIfEmpty result
  end.

(** [mutator.scope?.workspaceFolder?.index]. *)
Definition scopeIndex (s : option EnvironmentVariableScope) : option Z :=
  index <$> scopeFolder s.

(** The inequality test of line 184. *)
Definition differs (mutator otherMutator : Owned.t) : bool :=
  bool_decide (Owned.type mutator ≠ Owned.type otherMutator)
  || bool_decide (Owned.value mutator ≠ Owned.value otherMutator)
  || bool_decide (scopeIndex (Owned.scope mutator)
                  ≠ scopeIndex (Owned.scope otherMutator)).

(** Lines 167-191. *)
Definition getChangedMutatorsFromArray (current : list Owned.t)
    (other : option (list Owned.t)) : option (list Owned.t) :=
  match other with
  | None => None
  | Some other =>
      let otherMutatorExtensions : gmap string Owned.t :=
        fold_left (fun acc m => <[Owned.extensionIdentifier m := m]> acc)
          other ∅ in
      let result :=
        fold_left
          (fun result mutator =>
             match otherMutatorExtensions !! Owned.extensionIdentifier mutator with
             | Some otherMutator =>
                 if differs mutator otherMutator
                 then result ++ [otherMutator] else result
             | None => result
             end)
          current [] in
      undefinedIfEmpty result
  end.

(** [IMergedEnvironmentVariableCollectionDiff]. *)
Record IMergedEnvironmentVariableCollectionDiff : Type := {
  added : VariableMap;
  changed : VariableMap;
  removed : VariableMap
}.

(** [if (result) { target.set(variable, result); }]. *)
Definition setIfDefined (target : VariableMap) (variable : string)
    (result : option (list Owned.t)) : VariableMap :=
  match result with
  | Some result => JsMap.set target variable result
  | None => target
  end.

(** The three maps computed by lines 104-133, [this] being the receiver. *)
Definition diffAdded (this other : VariableMap) : VariableMap :=
  fold_left
    (fun added '(variable, otherMutators) =>
       let currentMutators := JsMap.get this variable in
       setIfDefined added variable
         (getMissingMutatorsFromArray otherMutators currentMutators))
    other JsMap.empty.

Definition diffRemoved (this other : VariableMap) : VariableMap :=
  fold_left
    (fun removed '(variable, currentMutators) =>
       let otherMutators := JsMap.get other variable in
       setIfDefined removed variable
         (getMissingMutatorsFromArray currentMutators otherMutators))
    this JsMap.empty.

Definition diffChanged (this other : VariableMap) : VariableMap :=
  fold_left
    (fun changed '(variable, currentMutators) =>
       let otherMutators := JsMap.get other variable in
       setIfDefined changed variable
         (getChangedMutatorsFromArray currentMutators otherMutators))
    this JsMap.empty.

(** [this.diff(other)]: [None] is [undefined]. *)
Definition diff (this other : VariableMap)
  : option IMergedEnvironmentVariableCollectionDiff :=
  let added := diffAdded this other in
  let changed := diffChanged this other in
  let removed := diffRemoved this other in
  if (JsMap.size added =? 0)%nat && (JsMap.size changed =? 0)%nat
     && (JsMap.size removed =? 0)%nat
  then None
  else Some {| added := added; changed := changed; removed := removed |}.

(** ** Vocabulary of the statements *)

(** The sequence of a variable in a merged collection; a variable that is
    not a key has the empty sequence. *)
Definition seqOf (variableMap : VariableMap) (variable : string)
  : list Owned.t :=
  default [] (JsMap.get variableMap variable).

(** The (extension, mutator) pairs in the order in which the two nested
    loops of the constructor visit them. *)
Definition mutatorsInOrder
    (collections : JsMap.t IEnvironmentVariableCollection)
  : list (string * Mutator.t) :=
  flat_map (fun c => map (fun km => (fst c, snd km)) (map_ (snd c)))
    collections.

(** [mergeMutator] on such a pair. *)
Definition mergeStep (owningWorkspace : option IWorkspaceFolder)
    (variableMap : VariableMap) (em : string * Mutator.t) : VariableMap :=
  mergeMutator owningWorkspace (fst em) variableMap (snd em).

(** What one turn of the loop does to the sequence of [variable]. *)
Definition seqStep (owningWorkspace : option IWorkspaceFolder)
    (variable : string) (entry : list Owned.t) (em : string * Mutator.t)
  : list Owned.t :=
  if scopedOut owningWorkspace (snd em) then entry
  else if decide (Mutator.variable (snd em) = variable) then
    if firstIsReplace entry then entry else owned (fst em) (snd em) :: entry
  else entry.

(** Modelled from the spec: the declaration of
    [IEnvironmentVariableCollection] is not among the sources; the data
    model says a Collection holds at most one mutator per variable, and a
    [ReadonlyMap] of collections has one entry per extension. *)
Definition CollectionsOk
    (collections : JsMap.t IEnvironmentVariableCollection) : Prop :=
  NoDup (JsMap.keys collections)
  ∧ ∀ c, c ∈ collections →
         NoDup (map (fun km => Mutator.variable (snd km)) (map_ (snd c))).

(** A merged collection as the data model describes it: a [Map] has each
    key once, and an extension occurs at most once in a sequence. *)
Definition MergedOk (variableMap : VariableMap) : Prop :=
  NoDup (JsMap.keys variableMap)
  ∧ ∀ e, e ∈ variableMap → NoDup (map Owned.extensionIdentifier (snd e)).



(** The maps of a diff result, [undefined] read as "nothing in any map". *)
Definition addedOf (d : option IMergedEnvironmentVariableCollectionDiff)
  : VariableMap :=
  match d with Some d => added d | None => JsMap.empty end.

Definition removedOf (d : option IMergedEnvironmentVariableCollectionDiff)
  : VariableMap :=
  match d with Some d => removed d | None => JsMap.empty end.

Definition changedOf (d : option IMergedEnvironmentVariableCollectionDiff)
  : VariableMap :=
  match d with Some d => changed d | None => JsMap.empty end.

(** An entry that is not a Replace. *)
Definition notReplace (x : Owned.t) : Prop := Owned.type x ≠ Replace.

(** ** Statements that are checked against the code as they are worded *)

(** "If the first entry of a variable's sequence is a Replace, the sequence
    has no other entry." *)
Definition replaceFirstIsAlone
    (collections : JsMap.t IEnvironmentVariableCollection)
    (owningWorkspace : option IWorkspaceFolder) : Prop :=
  ∀ variable e rest,
    seqOf (mergedVariableMap collections owningWorkspace) variable = e :: rest →
    Owned.type e = Replace → rest = [].

(** "If an earlier extension contributes a Replace for a variable, no
    mutator of a later extension is in the sequence of that variable." *)
Definition replaceIgnoresLater
    (collections : JsMap.t IEnvironmentVariableCollection)
    (owningWorkspace : option IWorkspaceFolder) : Prop :=
  ∀ cpre e1 c1 cpost k1 m1 e2 c2 k2 m2,
    collections = cpre ++ (e1, c1) :: cpost →
    (k1, m1) ∈ map_ c1 → Mutator.type m1 = Replace →
    (e2, c2) ∈ cpost → (k2, m2) ∈ map_ c2 →
    Mutator.variable m2 = Mutator.variable m1 →
    owned e2 m2 ∉ seqOf (mergedVariableMap collections owningWorkspace)
                    (Mutator.variable m1).

(** ** Data of the worked examples *)

Definition folder1 : IWorkspaceFolder := {| fsPath := "/w1"; index := 0 |}.
Definition folder2 : IWorkspaceFolder := {| fsPath := "/w2"; index := 1 |}.

Definition inFolder (w : IWorkspaceFolder) : option EnvironmentVariableScope :=
  Some {| workspaceFolder := Some w |}.

Definition collectionOf (m : Mutator.t) : IEnvironmentVariableCollection :=
  {| map_ := [(Mutator.variable m, m)] |}.

(** "ext.a" prepends, "ext.b" appends. *)
Definition prependThenAppend : JsMap.t IEnvironmentVariableCollection :=
  [("ext.a", collectionOf (Mutator.mk "FOO" "1" Prepend None));
   ("ext.b", collectionOf (Mutator.mk "FOO" "2" Append None))].

(** "ext.a" appends, "ext.b" replaces. *)
Definition appendThenReplace : JsMap.t IEnvironmentVariableCollection :=
  [("ext.a", collectionOf (Mutator.mk "FOO" "1" Append None));
   ("ext.b", collectionOf (Mutator.mk "FOO" "2" Replace None))].

(** "ext.a" replaces, "ext.b" appends. *)
Definition replaceThenAppend : JsMap.t IEnvironmentVariableCollection :=
  [("ext.a", collectionOf (Mutator.mk "FOO" "1" Replace None));
   ("ext.b", collectionOf (Mutator.mk "FOO" "2" Append None))].

(** "ext.a" replaces in folder 2 only, "ext.b" appends everywhere. *)
Definition scopedReplaceThenAppend : JsMap.t IEnvironmentVariableCollection :=
  [("ext.a", collectionOf (Mutator.mk "FOO" "1" Replace (inFolder folder2)));
   ("ext.b", collectionOf (Mutator.mk "FOO" "2" Append None))].

(** "ext.z" prepends everywhere, "ext.a" appends in folder 1 only. *)
Definition scopedAppend : JsMap.t IEnvironmentVariableCollection :=
  [("ext.z", collectionOf (Mutator.mk "FOO" "0" Prepend None));
   ("ext.a", collectionOf (Mutator.mk "FOO" "1" Append (inFolder folder1)))].

(** A resolver that counts its calls and rejects from the third call on. *)
Definition rejectThirdCall : VariableResolver (R := nat) :=
  fun calls str => (if (calls <? 2)%nat then Some str else None, S calls).

Definition appendOf (extensionIdentifier variable value : string) : Owned.t :=
  Owned.mk extensionIdentifier value Append None variable.

(** The answer of [getChangedMutatorsFromArray] for one mutator of
    [current], given the helper map built from [other]. *)
Definition changedCounterpart (otherMutatorExtensions : gmap string Owned.t)
    (mutator : Owned.t) : option Owned.t :=
  match otherMutatorExtensions !! Owned.extensionIdentifier mutator with
  | Some otherMutator =>
      if differs mutator otherMutator then Some otherMutator else None
  | None => None
  end.

(** The extensions whose mutators for [variable] are visited, in visiting
    order. *)
Definition visitorsOf (variable : string) (ems : list (string * Mutator.t))
  : list string :=
  map fst
    (List.filter (fun em => bool_decide (Mutator.variable (snd em) = variable))
       ems).

(** ** Vocabulary of the further properties *)

(** [owned] on an (extension, mutator) pair. *)
Definition ownedOf (em : string * Mutator.t) : Owned.t :=
  owned (fst em) (snd em).

(** The visited pairs whose mutator is for [variable] and passes the scope
    filter of the merge, in visiting order. *)
Definition passingFor (owningWorkspace : option IWorkspaceFolder)
    (variable : string) (ems : list (string * Mutator.t))
  : list (string * Mutator.t) :=
  List.filter
    (fun em => negb (scopedOut owningWorkspace (snd em))
               && bool_decide (Mutator.variable (snd em) = variable))
    ems.

(** A list of pairs cut after its first Replace. *)
Fixpoint uptoFirstReplace (ems : list (string * Mutator.t))
  : list (string * Mutator.t) :=
  match ems with
  | [] => []
  | em :: rest =>
      if bool_decide (Mutator.type (snd em) = Replace) then [em]
      else em :: uptoFirstReplace rest
  end.




(** A resolver that answers every call. *)
Definition neverRejects {R : Type}
    (variableResolver : option (VariableResolver (R := R))) : Prop :=
  ∀ r str, fst (resolveValue variableResolver r str) ≠ None.



(** No key of the map holds the empty array. *)
Definition noEmptySequence (variableMap : VariableMap) : Prop :=
  ∀ variable seq, JsMap.get variableMap variable = Some seq → seq ≠ [].

(** The two merged collections do not differ for [variable]: the same
    extensions contribute, and the two mutators of an extension have the
    same type, value and workspace folder index. *)
Definition sameContributions (current other : VariableMap)
    (variable : string) : Prop :=
  (∀ e, e ∈ map Owned.extensionIdentifier (seqOf current variable)
        ↔ e ∈ map Owned.extensionIdentifier (seqOf other variable))
  ∧ ∀ m m', m ∈ seqOf current variable → m' ∈ seqOf other variable →
            Owned.extensionIdentifier m = Owned.extensionIdentifier m' →
            differs m m' = false.

(** A merged collection with every sequence reversed. *)
Definition reverseSequences (variableMap : VariableMap) : VariableMap :=
  map (fun e => (fst e, rev (snd e))) variableMap.

(** * The decorations overview ruler

    The parts of
    [src/vs/editor/browser/viewParts/overviewRuler/decorationsOverviewRuler2.ts]
    that compute on integers and strings: the lanes of [Settings], the span
    given to a decoration in [_render], the paint queue and the colour
    cache.  Pixel coordinates are the results of [| 0], so they are
    integers; the canvas is the list of the calls made on it. *)

(** ** [Settings._initLanes] *)

(** Lines 78-163.  [Math.floor(a / b)] on integers is [a / b] on [Z].  The
    arrays are indexed by a lane mask ([Left = 1], [Center = 2],
    [Right = 4] and their unions). *)
Definition _initLanes (canvasLeftOffset canvasWidth laneCount : Z)
  : list Z * list Z :=
  let remainingWidth := (canvasWidth - canvasLeftOffset)%Z in
  if (3 <=? laneCount)%Z then
    let leftWidth := (remainingWidth / 3)%Z in
    let rightWidth := (remainingWidth / 3)%Z in
    let centerWidth := (remainingWidth - leftWidth - rightWidth)%Z in
    let leftOffset := canvasLeftOffset in
    let centerOffset := (leftOffset + leftWidth)%Z in
    let rightOffset := (leftOffset + leftWidth + centerWidth)%Z in
    ([0%Z; leftOffset; centerOffset; leftOffset; rightOffset; leftOffset;
      centerOffset; leftOffset],
     [0%Z; leftWidth; centerWidth; (leftWidth + centerWidth)%Z; rightWidth;
      (leftWidth + centerWidth + rightWidth)%Z; (centerWidth + rightWidth)%Z;
      (leftWidth + centerWidth + rightWidth)%Z])
  else if (laneCount =? 2)%Z then
    let leftWidth := (remainingWidth / 2)%Z in
    let rightWidth := (remainingWidth - leftWidth)%Z in
    let leftOffset := canvasLeftOffset in
    let rightOffset := (leftOffset + leftWidth)%Z in
    ([0%Z; leftOffset; leftOffset; leftOffset; rightOffset; leftOffset;
      leftOffset; leftOffset],
     [0%Z; leftWidth; leftWidth; leftWidth; rightWidth;
      (leftWidth + rightWidth)%Z; (leftWidth + rightWidth)%Z;
      (leftWidth + rightWidth)%Z])
  else
    let offset := canvasLeftOffset in
    let width := remainingWidth in
    ([0%Z; offset; offset; offset; offset; offset; offset; offset],
     [0%Z; width; width; width; width; width; width; width]).


(** ** The span of a decoration in [_render] *)

(** Lines 336-346: a span lower than the minimal height is replaced by
    one of that height around its centre, moved into the canvas.
    [(a / 2) | 0] truncates, which is [Z.quot]. *)
Definition decorationSpan (minDecorationHeight canvasHeight y1 y2 : Z)
  : Z * Z :=
  let halfMinDecorationHeight := Z.quot minDecorationHeight 2 in
  let height := (y2 - y1)%Z in
  if (height <? minDecorationHeight)%Z then
    let yCenter := Z.quot (y1 + y2) 2 in
    let yCenter :=
      if (yCenter <? halfMinDecorationHeight)%Z then halfMinDecorationHeight
      else if (canvasHeight <? yCenter + halfMinDecorationHeight)%Z
           then (canvasHeight - halfMinDecorationHeight)%Z
           else yCenter in
    ((yCenter - halfMinDecorationHeight)%Z,
     (yCenter + halfMinDecorationHeight)%Z)
  else (y1, y2).

(** ** The paint queue *)

(** [class PaintRequest] (lines 391-403). *)
Module PaintRequest.
Record t : Type := mk {
  color : string;
  y1 : Z;
  y2 : Z;
  lane : nat
}.
End PaintRequest.

#[global] Instance PaintRequest_eq_dec : EqDecision PaintRequest.t.
Proof. solve_decision. Defined.

(** The two things the code does with the canvas of the queue.  [Q.x[lane]]
    of a lane outside the array is [undefined], here [None]. *)
Inductive CanvasCall : Type :=
  | SetFillStyle (color : string)
  | FillRect (x : option Z) (y : Z) (w : option Z) (h : Z).

(** [class PaintQueue] (lines 405-419); [ctx] is the list of the calls made
    on the canvas so far. *)
Module PaintQueue.
Record t : Type := mk {
  ctx : list CanvasCall;
  x : list Z;
  w : list Z;
  req : list PaintRequest.t;
  pool : list PaintRequest.t
}.
End PaintQueue.

(** The calls of one [paintQueueFlush]. *)
Definition flushCalls (x w : list Z) (req : PaintRequest.t) : list CanvasCall :=
  [SetFillStyle (PaintRequest.color req);
   FillRect (x !! PaintRequest.lane req) (PaintRequest.y1 req)
     (w !! PaintRequest.lane req)
     (PaintRequest.y2 req - PaintRequest.y1 req)%Z].

(** Lines 465-468. *)
Definition paintQueueFlush (Q : PaintQueue.t) (req : PaintRequest.t)
  : PaintQueue.t :=
  PaintQueue.mk
    (PaintQueue.ctx Q ++ flushCalls (PaintQueue.x Q) (PaintQueue.w Q) req)
    (PaintQueue.x Q) (PaintQueue.w Q) (PaintQueue.req Q) (PaintQueue.pool Q).

(** [Q.req] and [Q.pool] after the request at [i] has left the queue:
    [newReq] is the array without it, and it is pushed on the pool. *)
Definition retire (Q : PaintQueue.t) (newReq : list PaintRequest.t)
    (req : PaintRequest.t) : PaintQueue.t :=
  PaintQueue.mk (PaintQueue.ctx Q) (PaintQueue.x Q) (PaintQueue.w Q) newReq
    (PaintQueue.pool Q ++ [req]).

(** The [for] loop of [paintQueueAccept] (lines 423-446), from index [i]
    with [len] as the loop keeps it.  The answer is the queue after the
    loop and the index of the request to merge into, if the loop has found
    one.  [None] stands for what the model does not follow: a read outside
    [Q.req], an assignment that would grow it, or more turns than [fuel]. *)
Fixpoint scanRequests (fuel : nat) (Q : PaintQueue.t) (color : string)
    (y1 : Z) (lane : nat) (i len : nat)
  : option (PaintQueue.t * option nat) :=
  if negb (i <? len)%nat then Some (Q, None)
  else
    match fuel with
    | O => None
    | S fuel =>
        match PaintQueue.req Q !! i with
        | None => None
        | Some req =>
            if (PaintRequest.y2 req <? y1)%Z then
              let Q := paintQueueFlush Q req in
              if (i + 1 =? len)%nat then
                Some (retire Q (removelast (PaintQueue.req Q)) req, None)
              else
                match last (PaintQueue.req Q) with
                | Some moved =>
                    if (i <? length (removelast (PaintQueue.req Q)))%nat then
                      scanRequests fuel
                        (retire Q
                           (<[i := moved]> (removelast (PaintQueue.req Q)))
                           req)
                        color y1 lane i (len - 1)
                    else None
                | None => None
                end
            else if (PaintRequest.lane req =? lane)%nat
                    && bool_decide (PaintRequest.color req = color)
            then Some (Q, Some i)
            else scanRequests fuel Q color y1 lane (S i) len
        end
    end.

(** [result.y2 = y2]. *)
Definition withY2 (y2 : Z) (req : PaintRequest.t) : PaintRequest.t :=
  PaintRequest.mk (PaintRequest.color req) (PaintRequest.y1 req) y2
    (PaintRequest.lane req).

(** [paintQueueAccept] (lines 421-463).  A request taken from the pool is
    overwritten by [init], so only the length of the pool matters. *)
Definition paintQueueAccept (Q : PaintQueue.t) (color : string) (y1 y2 : Z)
    (lane : nat) : option PaintQueue.t :=
  match scanRequests (length (PaintQueue.req Q)) Q color y1 lane 0
          (length (PaintQueue.req Q)) with
  | Some (Q, Some i) =>
      Some (PaintQueue.mk (PaintQueue.ctx Q) (PaintQueue.x Q) (PaintQueue.w Q)
              (alter (withY2 y2) i (PaintQueue.req Q)) (PaintQueue.pool Q))
  | Some (Q, None) =>
      Some (PaintQueue.mk (PaintQueue.ctx Q) (PaintQueue.x Q) (PaintQueue.w Q)
              (PaintQueue.req Q ++ [PaintRequest.mk color y1 y2 lane])
              (removelast (PaintQueue.pool Q)))
  | None => None
  end.

(** A request that ends above [y1], and one of the colour and lane asked
    for. *)
Definition expiredAt (y1 : Z) (req : PaintRequest.t) : Prop :=
  (PaintRequest.y2 req < y1)%Z.

Definition sameColourAndLane (color : string) (lane : nat)
    (req : PaintRequest.t) : Prop :=
  PaintRequest.lane req = lane ∧ PaintRequest.color req = color.

(** Colour and lane of a request. *)
Definition paintKey (req : PaintRequest.t) : nat * string :=
  (PaintRequest.lane req, PaintRequest.color req).

(** A queue for the examples: lanes of a canvas 13 wide, a request that
    ends at 5 and a red one in the left lane that ends at 20. *)
Definition exampleQueue : PaintQueue.t :=
  PaintQueue.mk [] (fst (_initLanes 1 13 3)) (snd (_initLanes 1 13 3))
    [PaintRequest.mk "blue" 0 5 4; PaintRequest.mk "red" 8 20 1] [].

(** ** The decoration loop of [_render] *)

(** A decoration as the loop has it at line 335: its lane
    ([opts.position]), its resolved colour, and the two pixel rows computed
    from its first and last line. *)
Module Placed.
Record t : Type := mk {
  lane : nat;
  color : string;
  y1 : Z;
  y2 : Z
}.
End Placed.

(** One turn of the loop of lines 323-349: lane 0 is skipped, the span is
    adjusted, the decoration is handed to the queue. *)
Definition acceptDecoration (minDecorationHeight canvasHeight : Z)
    (Q : PaintQueue.t) (d : Placed.t) : option PaintQueue.t :=
  if (Placed.lane d =? 0)%nat then Some Q
  else
    let span :=
      decorationSpan minDecorationHeight canvasHeight (Placed.y1 d)
        (Placed.y2 d) in
    paintQueueAccept Q (Placed.color d) (fst span) (snd span) (Placed.lane d).

(** Lines 322-352: a new queue on the canvas, every decoration accepted
    in order, then every request left in the queue flushed. *)
Definition paintDecorations (minDecorationHeight canvasHeight : Z)
    (ctx : list CanvasCall) (x w : list Z) (decorations : list Placed.t)
  : option PaintQueue.t :=
  match
    foldl
      (fun Q d =>
         match Q with
         | Some Q => acceptDecoration minDecorationHeight canvasHeight Q d
         | None => None
         end)
      (Some (PaintQueue.mk ctx x w [] [])) decorations
  with
  | Some Q => Some (foldl paintQueueFlush Q (PaintQueue.req Q))
  | None => None
  end.

(** The number of [fillRect] calls in a list of canvas calls. *)
Definition fillRects (calls : list CanvasCall) : nat :=
  length (List.filter
            (fun c => match c with FillRect _ _ _ _ => true | _ => false end)
            calls).

(** ** The colour cache *)

(** [theme.type]. *)
Inductive ThemeType : Type :=
  | Light
  | Dark
  | HighContrast.

(** [string | ThemeColor], or nothing. *)
Inductive RulerColor : Type :=
  | CssColor (css : string)
  | ThemeColorId (id : string)
  | NoColor.

(** The members of [ModelDecorationOverviewRulerOptions] the code reads
    and writes. *)
Record ModelDecorationOverviewRulerOptions : Type := {
  color : RulerColor;
  darkColor : RulerColor;
  hcColor : RulerColor;
  _resolvedColor : option string
}.

Section Colours.

(** [Color] of [vs/base/common/color] is not among the sources: its type,
    [toString] and [Color.transparent] are parameters. *)
Context {Color : Type}.
Variable colorToString : Color -> string.
Variable transparent : Color.

(** [ITheme]: [type] and [getColor]. *)
Record ITheme : Type := {
  themeType : ThemeType;
  getColor : string -> option Color
}.

(** Lines 479-488. *)
Definition resolveRulerColor (c : RulerColor) (theme : ITheme) : string :=
  match c with
  | CssColor css => css
  | ThemeColorId id => colorToString (default transparent (getColor theme id))
  | NoColor => colorToString transparent
  end.

(** The colour of the options for the type of the theme (line 473). *)
Definition colorFor (opts : ModelDecorationOverviewRulerOptions)
    (theme : ITheme) : RulerColor :=
  match themeType theme with
  | Dark => darkColor opts
  | Light => color opts
  | HighContrast => hcColor opts
  end.

(** Lines 470-477: the options afterwards and the colour returned.
    [!opts._resolvedColor] holds for [null] and for the empty string. *)
Definition resolveColor (opts : ModelDecorationOverviewRulerOptions)
    (theme : ITheme) : ModelDecorationOverviewRulerOptions * string :=
  match _resolvedColor opts with
  | Some cached =>
      if decide (cached = "") then
        let c := resolveRulerColor (colorFor opts theme) theme in
        ({| color := color opts; darkColor := darkColor opts;
            hcColor := hcColor opts; _resolvedColor := Some c |}, c)
      else (opts, cached)
  | None =>
      let c := resolveRulerColor (colorFor opts theme) theme in
      ({| color := color opts; darkColor := darkColor opts;
          hcColor := hcColor opts; _resolvedColor := Some c |}, c)
  end.

(** [opts._resolvedColor = null], as [onThemeChanged] does for every
    decoration (line 282). *)
Definition invalidate (opts : ModelDecorationOverviewRulerOptions)
  : ModelDecorationOverviewRulerOptions :=
  {| color := color opts; darkColor := darkColor opts;
     hcColor := hcColor opts; _resolvedColor := None |}.

End Colours.

(** Options and themes for the examples; colours are their CSS text. *)
Definition exampleOptions : ModelDecorationOverviewRulerOptions :=
  {| color := CssColor "#ff0000"; darkColor := ThemeColorId "editor.foreground";
     hcColor := NoColor; _resolvedColor := None |}.

Definition lightTheme : ITheme (Color := string) :=
  {| themeType := Light; getColor := fun _ => None |}.

Definition darkTheme : ITheme (Color := string) :=
  {| themeType := Dark; getColor := fun _ => Some "#d4d4d4" |}.

(** ** Facts about insertion-ordered maps *)

Section JsMapFacts.

Context {V : Type}.
Implicit Types (m : JsMap.t V) (k : string) (v : V).

Lemma get_set_eq m k v : JsMap.get (JsMap.set m k v) k = Some v.
Proof.
  induction m as [|[k' v'] m IH]; simpl.
  - by rewrite decide_True.
  - destruct (decide (k = k')) as [->|Hne]; simpl.
    + by rewrite decide_True.
    + by rewrite decide_False.
Qed.

Lemma get_set_ne m k k' v :
  k ≠ k' → JsMap.get (JsMap.set m k v) k' = JsMap.get m k'.
Proof.
  intros Hne. induction m as [|[k0 v0] m IH]; simpl.
  - rewrite decide_False; [done | congruence].
  - destruct (decide (k = k0)) as [->|Hk]; simpl.
    + rewrite !decide_False; [done | congruence | congruence].
    + by rewrite IH.
Qed.

Lemma get_set m k k' v :
  JsMap.get (JsMap.set m k v) k'
  = if decide (k = k') then Some v else JsMap.get m k'.
Proof.
  destruct (decide (k = k')) as [->|Hne].
  - apply get_set_eq.
  - by apply get_set_ne.
Qed.

Lemma get_None_keys m k : JsMap.get m k = None ↔ k ∉ JsMap.keys m.
Proof.
  unfold JsMap.keys. induction m as [|[k' v'] m IH]; simpl.
  - split; [intros _; apply not_elem_of_nil | done].
  - rewrite not_elem_of_cons. destruct (decide (k = k')) as [->|Hne].
    + split; [done | intros [? _]; done].
    + rewrite IH. tauto.
Qed.

Lemma get_Some_keys m k : is_Some (JsMap.get m k) ↔ k ∈ JsMap.keys m.
Proof.
  rewrite <- not_eq_None_Some, get_None_keys.
  split; [apply dec_stable | auto].
Qed.

(** Overwriting an existing key changes neither the keys nor their
    order. *)
Lemma keys_set_in m k v :
  k ∈ JsMap.keys m → JsMap.keys (JsMap.set m k v) = JsMap.keys m.
Proof.
  unfold JsMap.keys. induction m as [|[k' v'] m IH]; simpl.
  - intros H. by apply elem_of_nil in H.
  - intros H. destruct (decide (k = k')) as [->|Hne]; simpl; [done|].
    apply elem_of_cons in H as [?|H]; [done|]. by rewrite IH.
Qed.

(** A new key is appended. *)
Lemma set_notin m k v :
  k ∉ JsMap.keys m → JsMap.set m k v = m ++ [(k, v)].
Proof.
  unfold JsMap.keys. induction m as [|[k' v'] m IH]; simpl; [done|].
  rewrite not_elem_of_cons. intros [Hne Hnotin].
  rewrite decide_False by done. by rewrite IH.
Qed.

Lemma keys_set_notin m k v :
  k ∉ JsMap.keys m → JsMap.keys (JsMap.set m k v) = JsMap.keys m ++ [k].
Proof.
  intros H. rewrite set_notin by done. unfold JsMap.keys.
  by rewrite map_app.
Qed.

Lemma elem_of_keys_set m k k' v :
  k' ∈ JsMap.keys (JsMap.set m k v) ↔ k' = k ∨ k' ∈ JsMap.keys m.
Proof.
  rewrite <- !get_Some_keys, get_set.
  destruct (decide (k = k')) as [->|Hne].
  - split; [auto | intros _; by eexists].
  - split; [auto | intros [->|?]; done].
Qed.

Lemma NoDup_keys_set m k v :
  NoDup (JsMap.keys m) → NoDup (JsMap.keys (JsMap.set m k v)).
Proof.
  intros Hnd. destruct (decide (k ∈ JsMap.keys m)) as [Hin|Hnotin].
  - by rewrite keys_set_in.
  - rewrite keys_set_notin by done.
    apply NoDup_app. split_and!; [done | | apply NoDup_singleton].
    intros x Hx Hx'. apply list_elem_of_singleton in Hx' as ->. done.
Qed.

Lemma get_elem_of m k v : JsMap.get m k = Some v → (k, v) ∈ m.
Proof.
  induction m as [|[k' v'] m IH]; simpl; [done|].
  destruct (decide (k = k')) as [->|Hne].
  - intros [= ->]. apply elem_of_cons. by left.
  - intros H. apply elem_of_cons. right. by apply IH.
Qed.

Lemma elem_of_get m k v :
  NoDup (JsMap.keys m) → (k, v) ∈ m → JsMap.get m k = Some v.
Proof.
  unfold JsMap.keys. induction m as [|[k' v'] m IH]; simpl.
  - intros _ H. by apply elem_of_nil in H.
  - rewrite NoDup_cons. intros [Hnotin Hnd] H.
    apply elem_of_cons in H as [[= <- <-]|H].
    + by rewrite decide_True.
    + rewrite decide_False; [by apply IH|].
      intros <-. apply Hnotin. apply list_elem_of_fmap. by exists (k, v).
Qed.

End JsMapFacts.

(** ** The constructor, one variable at a time *)

Section MergeFacts.

Variable owningWorkspace : option IWorkspaceFolder.

Lemma mergedVariableMap_flat collections :
  mergedVariableMap collections owningWorkspace
  = fold_left (mergeStep owningWorkspace) (mutatorsInOrder collections)
      JsMap.empty.
Proof.
  unfold mergedVariableMap. generalize (@JsMap.empty (list Owned.t)).
  induction collections as [|[e c] cs IH]; intros vm; simpl; [done|].
  rewrite fold_left_app, IH. f_equal.
  unfold mergeCollection; simpl. generalize vm.
  induction (map_ c) as [|[k m] ms IHm]; intros vm0; simpl; [done|].
  by rewrite IHm.
Qed.

Lemma seqOf_mergeStep vm em variable :
  seqOf (mergeStep owningWorkspace vm em) variable
  = seqStep owningWorkspace variable (seqOf vm variable) em.
Proof.
  destruct em as [e m]. unfold mergeStep, mergeMutator, seqStep, seqOf.
  simpl. destruct (scopedOut owningWorkspace m); [done|].
  destruct (decide (Mutator.variable m = variable)) as [<-|Hne].
  - destruct (JsMap.get vm (Mutator.variable m)) as [entry|] eqn:Hget;
      simpl.
    + destruct (firstIsReplace entry); [by rewrite Hget|].
      by rewrite get_set_eq.
    + by rewrite get_set_eq.
  - destruct (JsMap.get vm (Mutator.variable m)) as [entry|] eqn:Hget;
      simpl.
    + destruct (firstIsReplace entry); [done|]. by rewrite get_set_ne.
    + by rewrite !get_set_ne.
Qed.

Lemma seqOf_fold vm ems variable :
  seqOf (fold_left (mergeStep owningWorkspace) ems vm) variable
  = fold_left (seqStep owningWorkspace variable) ems (seqOf vm variable).
Proof.
  revert vm. induction ems as [|em ems IH]; intros vm; simpl; [done|].
  by rewrite IH, seqOf_mergeStep.
Qed.

Lemma seqOf_merged collections variable :
  seqOf (mergedVariableMap collections owningWorkspace) variable
  = fold_left (seqStep owningWorkspace variable)
      (mutatorsInOrder collections) [].
Proof. by rewrite mergedVariableMap_flat, seqOf_fold. Qed.

End MergeFacts.

Section SeqStepFacts.

Variable owningWorkspace : option IWorkspaceFolder.
Variable variable : string.

Local Abbreviation step := (seqStep owningWorkspace variable).

Lemma firstIsReplace_false_Forall entry :
  firstIsReplace entry = false → Forall notReplace (tail entry) →
  Forall notReplace entry.
Proof.
  destruct entry as [|h t]; simpl; [by constructor|].
  intros Hh Ht. constructor; [|done].
  by apply bool_decide_eq_false in Hh.
Qed.

Lemma Forall_notReplace_first entry :
  Forall notReplace entry → firstIsReplace entry = false.
Proof.
  destruct entry as [|h t]; simpl; [done|].
  intros Hall. apply Forall_cons in Hall as [Hh _].
  by apply bool_decide_eq_false.
Qed.

(** Only the first entry can be a Replace. *)
Lemma step_tail_notReplace entry em :
  Forall notReplace (tail entry) →
  Forall notReplace (tail (step entry em)).
Proof.
  intros Htail. unfold seqStep.
  destruct (scopedOut _ _); [done|].
  destruct (decide _); [|done].
  destruct (firstIsReplace entry) eqn:Hfirst; [done|]. simpl.
  by apply firstIsReplace_false_Forall.
Qed.

Lemma fold_tail_notReplace ems entry :
  Forall notReplace (tail entry) →
  Forall notReplace (tail (fold_left step ems entry)).
Proof.
  revert entry. induction ems as [|em ems IH]; intros entry H; simpl;
    [done|].
  by apply IH, step_tail_notReplace.
Qed.

(** Once a Replace is first, the sequence is final. *)
Lemma step_frozen entry em :
  firstIsReplace entry = true → step entry em = entry.
Proof.
  intros Hfirst. unfold seqStep. rewrite Hfirst.
  destruct (scopedOut _ _); [done|]. by destruct (decide _).
Qed.

Lemma fold_frozen ems entry :
  firstIsReplace entry = true → fold_left step ems entry = entry.
Proof.
  intros Hfirst. induction ems as [|em ems IH]; simpl; [done|].
  by rewrite step_frozen.
Qed.

(** Entries are only ever added. *)
Lemma step_mono entry em x : x ∈ entry → x ∈ step entry em.
Proof.
  intros Hx. unfold seqStep.
  destruct (scopedOut _ _); [done|]. destruct (decide _); [|done].
  destruct (firstIsReplace entry); [done|]. by apply elem_of_cons; right.
Qed.

Lemma fold_mono ems entry x :
  x ∈ entry → x ∈ fold_left step ems entry.
Proof.
  revert entry. induction ems as [|em ems IH]; intros entry Hx; simpl;
    [done|].
  by apply IH, step_mono.
Qed.

(** Where an entry comes from. *)
Lemma step_origin entry em x :
  x ∈ step entry em →
  x ∈ entry
  ∨ (x = owned (fst em) (snd em)
     ∧ scopedOut owningWorkspace (snd em) = false
     ∧ Mutator.variable (snd em) = variable).
Proof.
  unfold seqStep.
  destruct (scopedOut _ _) eqn:Hscope; [by left|].
  destruct (decide _) as [Hvar|]; [|by left].
  destruct (firstIsReplace entry); [by left|].
  intros Hx. apply elem_of_cons in Hx as [->|Hx]; [by right|by left].
Qed.

Lemma fold_origin ems entry x :
  x ∈ fold_left step ems entry →
  x ∈ entry
  ∨ ∃ em, em ∈ ems ∧ x = owned (fst em) (snd em)
          ∧ scopedOut owningWorkspace (snd em) = false
          ∧ Mutator.variable (snd em) = variable.
Proof.
  revert entry. induction ems as [|em ems IH]; intros entry Hx; simpl in *;
    [by left|].
  apply IH in Hx as [Hx|(em' & Hin & Heq)].
  - apply step_origin in Hx as [Hx|Hx]; [by left|].
    right. exists em. split; [apply elem_of_cons; by left | done].
  - right. exists em'. split; [apply elem_of_cons; by right | done].
Qed.

(** A Replace that passes the scope filter is first afterwards. *)
Lemma step_Replace_first entry em :
  scopedOut owningWorkspace (snd em) = false →
  Mutator.variable (snd em) = variable →
  Mutator.type (snd em) = Replace →
  firstIsReplace (step entry em) = true.
Proof.
  intros Hscope Hvar Hty. unfold seqStep.
  rewrite Hscope, decide_True by done.
  destruct (firstIsReplace entry) eqn:Hfirst; [done|]. simpl.
  by apply bool_decide_eq_true.
Qed.

(** A mutator that passes the filter and meets no Replace is unshifted. *)
Lemma step_unshift entry em :
  scopedOut owningWorkspace (snd em) = false →
  Mutator.variable (snd em) = variable →
  firstIsReplace entry = false →
  step entry em = owned (fst em) (snd em) :: entry.
Proof.
  intros Hscope Hvar Hfirst. unfold seqStep.
  by rewrite Hscope, decide_True, Hfirst.
Qed.

(** Without a Replace that passes the filter there is no Replace in the
    sequence. *)
Lemma fold_no_Replace ems :
  (∀ em, em ∈ ems → Mutator.variable (snd em) = variable →
         scopedOut owningWorkspace (snd em) = false →
         Mutator.type (snd em) ≠ Replace) →
  Forall notReplace (fold_left step ems []).
Proof.
  intros Hno. apply Forall_forall. intros x Hx.
  apply fold_origin in Hx as [Hx|(em & Hin & -> & Hscope & Hvar)].
  - by apply elem_of_nil in Hx.
  - unfold notReplace, owned; simpl. by apply Hno.
Qed.

End SeqStepFacts.

Lemma mutatorsInOrder_app cs1 cs2 :
  mutatorsInOrder (cs1 ++ cs2) = mutatorsInOrder cs1 ++ mutatorsInOrder cs2.
Proof. unfold mutatorsInOrder. apply flat_map_app. Qed.

Lemma elem_of_mutatorsInOrder cs e m :
  (e, m) ∈ mutatorsInOrder cs
  ↔ ∃ c k, (e, c) ∈ cs ∧ (k, m) ∈ map_ c.
Proof.
  unfold mutatorsInOrder. rewrite list_elem_of_In, in_flat_map. split.
  - intros ([e' c] & Hc & Hin). apply in_map_iff in Hin as ([k m'] & Heq & Hkm).
    simpl in Heq. injection Heq as <- <-. exists c, k.
    by rewrite !list_elem_of_In.
  - intros (c & k & Hc & Hkm). exists (e, c).
    rewrite <- list_elem_of_In. split; [done|].
    apply in_map_iff. exists (k, m). by rewrite <- list_elem_of_In.
Qed.

(** ** The merged sequences *)

(** The sequence is its first entry in front of the sequence as it was
    when that entry arrived. *)
Lemma fold_seqStep_head owningWorkspace variable ems e rest :
  fold_left (seqStep owningWorkspace variable) ems [] = e :: rest →
  ∃ pre em post,
    ems = pre ++ em :: post ∧ e = owned (fst em) (snd em)
    ∧ rest = fold_left (seqStep owningWorkspace variable) pre [].
Proof.
  revert e rest. induction ems as [|em ems IH] using rev_ind;
    intros e rest; [done|].
  rewrite fold_left_app. simpl.
  set (entry := fold_left (seqStep owningWorkspace variable) ems []) in *.
  unfold seqStep at 1.
  destruct (scopedOut _ _); [|destruct (decide _);
    [destruct (firstIsReplace entry)|]];
    try (intros Heq; apply IH in Heq as (pre & em0 & post & -> & -> & ->);
         exists pre, em0, (post ++ [em]); by rewrite <- app_assoc).
  intros [= <- <-]. by exists ems, em, [].
Qed.

(** C1, as worded, fails: "ext.a" appends to FOO, "ext.b" replaces FOO;
    the Replace of "ext.b" is first and the Append of "ext.a" follows it. *)
Lemma Replace_first_not_alone :
  ¬ replaceFirstIsAlone appendThenReplace None.
Proof.
  intros H.
  specialize (H "FOO" (Owned.mk "ext.b" "2" Replace None "FOO")
                [Owned.mk "ext.a" "1" Append None "FOO"]).
  discriminate H; reflexivity.
Qed.

(** C1, amended: in every sequence of a merged collection only the first
    entry can be a Replace; every other entry is an Append or a Prepend
    that the constructor visited before the first entry. *)
Theorem Replace_only_first collections owningWorkspace variable e rest :
  seqOf (mergedVariableMap collections owningWorkspace) variable = e :: rest →
  Forall notReplace rest
  ∧ ∃ pre em post,
      mutatorsInOrder collections = pre ++ em :: post
      ∧ e = owned (fst em) (snd em)
      ∧ ∀ x, x ∈ rest → ∃ em', em' ∈ pre ∧ x = owned (fst em') (snd em').
Proof.
  rewrite seqOf_merged. intros Hseq. split.
  - change rest with (tail (e :: rest)). rewrite <- Hseq.
    apply fold_tail_notReplace. constructor.
  - apply fold_seqStep_head in Hseq as (pre & em & post & Hems & He & Hrest).
    exists pre, em, post. split_and!; [done..|].
    intros x Hx. rewrite Hrest in Hx.
    apply fold_origin in Hx as [Hx|(em' & Hin & Hx & _)].
    + by apply elem_of_nil in Hx.
    + by exists em'.
Qed.

Lemma Replace_only_first_witness :
  Forall notReplace [Owned.mk "ext.a" "1" Append None "FOO"].
Proof.
  apply (Replace_only_first appendThenReplace None "FOO"
           (Owned.mk "ext.b" "2" Replace None "FOO")
           [Owned.mk "ext.a" "1" Append None "FOO"]).
  reflexivity.
Defined.

(** C4, as worded, fails: merging for folder 1, the Replace that "ext.a"
    contributes for folder 2 is filtered out, and the Append of the later
    "ext.b" is in the sequence. *)
Lemma filtered_Replace_does_not_ignore_later :
  ¬ replaceIgnoresLater scopedReplaceThenAppend (Some folder1).
Proof.
  intros H.
  apply (H [] "ext.a" (collectionOf (Mutator.mk "FOO" "1" Replace (inFolder folder2)))
           [("ext.b", collectionOf (Mutator.mk "FOO" "2" Append None))]
           "FOO" (Mutator.mk "FOO" "1" Replace (inFolder folder2))
           "ext.b" (collectionOf (Mutator.mk "FOO" "2" Append None))
           "FOO" (Mutator.mk "FOO" "2" Append None));
    try reflexivity; try (apply list_elem_of_singleton; reflexivity).
Qed.

(** C4, amended: if an earlier extension contributes a Replace for a
    variable and that Replace passes the scope filter of the merge, then no
    mutator of a later extension is in the sequence of that variable,
    whatever its type. *)
Theorem Replace_ignores_later collections owningWorkspace
    cpre e1 c1 cpost k1 m1 e2 c2 k2 m2 :
  NoDup (JsMap.keys collections) →
  collections = cpre ++ (e1, c1) :: cpost →
  (k1, m1) ∈ map_ c1 → Mutator.type m1 = Replace →
  scopedOut owningWorkspace m1 = false →
  (e2, c2) ∈ cpost → (k2, m2) ∈ map_ c2 →
  Mutator.variable m2 = Mutator.variable m1 →
  owned e2 m2 ∉ seqOf (mergedVariableMap collections owningWorkspace)
                  (Mutator.variable m1).
Proof.
  intros Hnd -> Hm1 Hty Hscope Hc2 Hm2 Hvar Hin.
  apply list_elem_of_split in Hm1 as (a & b & Hmap).
  rewrite seqOf_merged in Hin.
  replace (mutatorsInOrder (cpre ++ (e1, c1) :: cpost))
    with ((mutatorsInOrder cpre ++ map (fun km => (e1, snd km)) a
           ++ [(e1, m1)])
          ++ (map (fun km => (e1, snd km)) b ++ mutatorsInOrder cpost))
    in Hin.
  2:{ rewrite mutatorsInOrder_app. unfold mutatorsInOrder at 4. simpl.
      rewrite Hmap, map_app. simpl. by rewrite <- !app_assoc. }
  rewrite fold_left_app in Hin.
  rewrite (fold_frozen _ _ (_ ++ _)) in Hin.
  2:{ rewrite !app_assoc, fold_left_app. simpl.
      by apply step_Replace_first. }
  apply fold_origin in Hin as [Hin|(em & Hem & Heq & _)];
    [by apply elem_of_nil in Hin|].
  assert (fst em = e2) as Hfst by (by injection Heq).
  unfold JsMap.keys in Hnd. rewrite map_app in Hnd. simpl in Hnd.
  apply NoDup_app in Hnd as (_ & Hdisj & Hnd').
  apply NoDup_cons in Hnd' as [Hne1 _].
  assert (e2 ∈ map fst cpost) as He2.
  { apply list_elem_of_fmap. by exists (e2, c2). }
  rewrite !elem_of_app in Hem. destruct Hem as [Hem|[Hem|Hem]].
  - destruct em as [e m]. simpl in Hfst. subst e.
    apply elem_of_mutatorsInOrder in Hem as (c & k & Hc & _).
    apply (Hdisj e2).
    + apply list_elem_of_fmap. by exists (e2, c).
    + apply elem_of_cons. by right.
  - apply list_elem_of_fmap in Hem as (km & -> & _). simpl in Hfst.
    by subst e1.
  - apply list_elem_of_singleton in Hem as ->. simpl in Hfst. by subst e1.
Qed.

Lemma Replace_ignores_later_witness :
  owned "ext.b" (Mutator.mk "FOO" "2" Append None)
  ∉ seqOf (mergedVariableMap replaceThenAppend None) "FOO".
Proof.
  apply (Replace_ignores_later replaceThenAppend None
           [] "ext.a" (collectionOf (Mutator.mk "FOO" "1" Replace None))
           [("ext.b", collectionOf (Mutator.mk "FOO" "2" Append None))]
           "FOO" (Mutator.mk "FOO" "1" Replace None)
           "ext.b" (collectionOf (Mutator.mk "FOO" "2" Append None))
           "FOO" (Mutator.mk "FOO" "2" Append None));
    try reflexivity; try (apply list_elem_of_singleton; reflexivity).
  apply (bool_decide_unpack (NoDup ["ext.a"; "ext.b"])). vm_compute. exact I.
Defined.

(** C5: a mutator scoped to workspace folder [W] is in no sequence of a
    merge whose owning workspace is another folder; in a merge whose owning
    workspace is [W], or that has none, it is in the sequence of its
    variable unless a Replace for that variable that passes the filter
    was visited before it. *)
Theorem scope_filtering collections owningWorkspace pre e m post W :
  mutatorsInOrder collections = pre ++ (e, m) :: post →
  scopeFolder (Mutator.scope m) = Some W →
  (∀ O, owningWorkspace = Some O → fsPath O ≠ fsPath W →
        ∀ variable,
          owned e m ∉ seqOf (mergedVariableMap collections owningWorkspace)
                         variable)
  ∧ ((owningWorkspace = None
      ∨ ∃ O, owningWorkspace = Some O ∧ fsPath O = fsPath W) →
     (∀ em', em' ∈ pre →
             Mutator.variable (snd em') = Mutator.variable m →
             scopedOut owningWorkspace (snd em') = false →
             Mutator.type (snd em') ≠ Replace) →
     owned e m ∈ seqOf (mergedVariableMap collections owningWorkspace)
                    (Mutator.variable m)).
Proof.
  intros Hflat HW. split.
  - intros O -> Hne variable Hin. rewrite seqOf_merged in Hin.
    apply fold_origin in Hin as [Hin|(em' & _ & Heq & Hscope & _)];
      [by apply elem_of_nil in Hin|].
    assert (Mutator.scope (snd em') = Mutator.scope m) as Hsc
      by (by injection Heq).
    unfold scopedOut in Hscope. rewrite Hsc, HW in Hscope.
    apply bool_decide_eq_false in Hscope. apply Hscope. congruence.
  - intros Hown Hno. rewrite seqOf_merged, Hflat, fold_left_app. simpl.
    apply fold_mono.
    assert (scopedOut owningWorkspace m = false) as Hscope.
    { unfold scopedOut. rewrite HW.
      destruct Hown as [->|(O & -> & Heq)]; [done|].
      apply bool_decide_eq_false. congruence. }
    rewrite (step_unshift _ _ _ (e, m)); [apply elem_of_cons; by left|done..|].
    by apply Forall_notReplace_first, fold_no_Replace.
Qed.

Lemma scope_filtering_witness :
  (∀ variable,
     owned "ext.a" (Mutator.mk "FOO" "1" Append (inFolder folder1))
     ∉ seqOf (mergedVariableMap scopedAppend (Some folder2)) variable)
  ∧ owned "ext.a" (Mutator.mk "FOO" "1" Append (inFolder folder1))
    ∈ seqOf (mergedVariableMap scopedAppend (Some folder1)) "FOO"
  ∧ owned "ext.a" (Mutator.mk "FOO" "1" Append (inFolder folder1))
    ∈ seqOf (mergedVariableMap scopedAppend None) "FOO".
Proof.
  assert (∀ owningWorkspace em',
            em' ∈ [("ext.z", Mutator.mk "FOO" "0" Prepend None)] →
            Mutator.variable (snd em') = "FOO" →
            scopedOut owningWorkspace (snd em') = false →
            Mutator.type (snd em') ≠ Replace) as Hpre.
  { intros ow em' Hin _ _. apply list_elem_of_singleton in Hin as ->.
    discriminate. }
  split_and!.
  - apply (proj1 (scope_filtering scopedAppend (Some folder2)
                    [("ext.z", Mutator.mk "FOO" "0" Prepend None)] "ext.a"
                    (Mutator.mk "FOO" "1" Append (inFolder folder1)) []
                    folder1 eq_refl eq_refl) folder2 eq_refl).
    discriminate.
  - apply (proj2 (scope_filtering scopedAppend (Some folder1)
                    [("ext.z", Mutator.mk "FOO" "0" Prepend None)] "ext.a"
                    (Mutator.mk "FOO" "1" Append (inFolder folder1)) []
                    folder1 eq_refl eq_refl)).
    + right. by exists folder1.
    + apply Hpre.
  - apply (proj2 (scope_filtering scopedAppend None
                    [("ext.z", Mutator.mk "FOO" "0" Prepend None)] "ext.a"
                    (Mutator.mk "FOO" "1" Append (inFolder folder1)) []
                    folder1 eq_refl eq_refl)).
    + by left.
    + apply Hpre.
Defined.

(** ** Applying a merged collection *)

(** C3: "ext.a" prepends "1" to FOO and "ext.b" appends "2"; merged in that
    order without owning workspace and applied without resolver to
    FOO = "X", the result is FOO = "1X2", on either platform. *)
Theorem prepend_append_end_to_end (isWindows : bool) :
  applyWithoutResolver isWindows
    (mergedVariableMap prependThenAppend None) [("FOO", Some "X")]
  = (Fulfilled, [("FOO", Some "1X2")]).
Proof. destruct isWindows; vm_compute; reflexivity. Qed.

Section ApplyFacts.

Context {R : Type}.
Implicit Types (variableResolver : option (VariableResolver (R := R))).

Lemma applyMutators_app variableResolver k ms1 ms2 env r :
  applyMutators variableResolver k (ms1 ++ ms2) env r
  = match applyMutators variableResolver k ms1 env r with
    | (Fulfilled, env', r') => applyMutators variableResolver k ms2 env' r'
    | rejected => rejected
    end.
Proof.
  revert env r. induction ms1 as [|m ms1 IH]; intros env r; simpl; [done|].
  destruct (resolveValue _ _ _) as [[value|] r']; [apply IH|done].
Qed.

Lemma applyVariables_app variableResolver lower vm1 vm2 env r :
  applyVariables variableResolver lower (vm1 ++ vm2) env r
  = match applyVariables variableResolver lower vm1 env r with
    | (Fulfilled, env', r') =>
        applyVariables variableResolver lower vm2 env' r'
    | rejected => rejected
    end.
Proof.
  revert env r. induction vm1 as [|[v ms] vm1 IH]; intros env r; simpl;
    [done|].
  destruct (applyMutators _ _ _ _ _) as [[[|] env'] r']; [apply IH|done].
Qed.

Lemma applyVariables_one variableResolver lower v ms env r :
  applyVariables variableResolver lower [(v, ms)] env r
  = applyMutators variableResolver (actualVariableName lower v) ms env r.
Proof.
  simpl. by destruct (applyMutators _ _ _ _ _) as [[[|] env'] r'].
Qed.


End ApplyFacts.

(** C2: when the resolver rejects at some mutator, the call rejects at
    once: the environment is the one reached after the variables before
    the failing one and the mutators of the failing variable before the
    failing mutator, and the resolver is not called again. *)
Theorem resolver_failure_aborts {R : Type} (isWindows : bool)
    (f : VariableResolver (R := R)) pre variable ms1 m ms2 post
    env r env' r' r'' :
  applyToProcessEnvironment isWindows (pre ++ [(variable, ms1)]) env
    (Some f) r = (Fulfilled, env', r') →
  f r' (Owned.value m) = (None, r'') →
  applyToProcessEnvironment isWindows
    (pre ++ (variable, ms1 ++ m :: ms2) :: post) env (Some f) r
  = (Rejected, env', r'').
Proof.
  unfold applyToProcessEnvironment.
  generalize (if isWindows then Some (lowerToActualVariableNames env)
              else None).
  intros lower Hpre Hfail.
  rewrite applyVariables_app in Hpre. rewrite applyVariables_app.
  destruct (applyVariables (Some f) lower pre env r) as [[[|] env1] r1];
    [|done].
  rewrite applyVariables_one in Hpre. simpl.
  rewrite applyMutators_app, Hpre. simpl. by rewrite Hfail.
Qed.

Lemma resolver_failure_aborts_witness :
  applyToProcessEnvironment false
    [("A", [appendOf "ext.a" "A" "1"]);
     ("B", [appendOf "ext.a" "B" "2"; appendOf "ext.b" "B" "3";
            appendOf "ext.c" "B" "4"]);
     ("C", [appendOf "ext.a" "C" "5"])]
    [("A", Some "a"); ("B", Some "b"); ("C", Some "c")]
    (Some rejectThirdCall) 0%nat
  = (Rejected, [("A", Some "a1"); ("B", Some "b2"); ("C", Some "c")], 3%nat).
Proof.
  apply (resolver_failure_aborts false rejectThirdCall
           [("A", [appendOf "ext.a" "A" "1"])] "B"
           [appendOf "ext.a" "B" "2"] (appendOf "ext.b" "B" "3")
           [appendOf "ext.c" "B" "4"] [("C", [appendOf "ext.a" "C" "5"])]
           [("A", Some "a"); ("B", Some "b"); ("C", Some "c")] 0%nat
           [("A", Some "a1"); ("B", Some "b2"); ("C", Some "c")] 2%nat 3%nat).
  - vm_compute. reflexivity.
  - vm_compute. reflexivity.
Defined.

(** ** Case-insensitive names on Windows *)


















(** ** The diff of two merged collections *)

Lemma size_zero_empty {V : Type} (m : JsMap.t V) :
  (JsMap.size m =? 0)%nat = true ↔ m = [].
Proof.
  rewrite Nat.eqb_eq. unfold JsMap.size. apply length_zero_iff_nil.
Qed.

(** [diff] answers [undefined] exactly when the three maps are empty. *)
Lemma diff_None_iff this other :
  diff this other = None
  ↔ diffAdded this other = [] ∧ diffChanged this other = []
    ∧ diffRemoved this other = [].
Proof.
  unfold diff.
  destruct (_ && _) eqn:Hsizes.
  - apply andb_prop in Hsizes as [Hsizes Hr].
    apply andb_prop in Hsizes as [Ha Hc].
    by rewrite !size_zero_empty in *.
  - split; [done|]. intros (Ha & Hc & Hr).
    rewrite Ha, Hc, Hr in Hsizes. done.
Qed.

Lemma addedOf_diff this other :
  addedOf (diff this other) = diffAdded this other.
Proof.
  destruct (diff this other) as [d|] eqn:Hd.
  - unfold diff in Hd. destruct (_ && _); [done|]. by injection Hd as <-.
  - apply diff_None_iff in Hd as (-> & _ & _). done.
Qed.

Lemma removedOf_diff this other :
  removedOf (diff this other) = diffRemoved this other.
Proof.
  destruct (diff this other) as [d|] eqn:Hd.
  - unfold diff in Hd. destruct (_ && _); [done|]. by injection Hd as <-.
  - apply diff_None_iff in Hd as (_ & _ & ->). done.
Qed.

Lemma changedOf_diff this other :
  changedOf (diff this other) = diffChanged this other.
Proof.
  destruct (diff this other) as [d|] eqn:Hd.
  - unfold diff in Hd. destruct (_ && _); [done|]. by injection Hd as <-.
  - apply diff_None_iff in Hd as (_ & -> & _). done.
Qed.

(** C7: the added map of [diff(current, other)] is the removed map of
    [diff(other, current)]: the same variables in the same order, each
    with the same sequence of mutators.  An [undefined] result stands for
    three empty maps. *)
Theorem diff_added_removed_symmetry (current other : VariableMap) :
  diffAdded current other = diffRemoved other current
  ∧ addedOf (diff current other) = removedOf (diff other current).
Proof.
  assert (diffAdded current other = diffRemoved other current) as Hsym
    by reflexivity.
  split; [done|]. by rewrite addedOf_diff, removedOf_diff.
Qed.

(** The helper set of [getMissingMutatorsFromArray]. *)
Lemma elem_of_extension_set (l : list Owned.t) (s : gset string) x :
  x ∈ fold_left (fun s m => {[Owned.extensionIdentifier m]} ∪ s) l s
  ↔ x ∈ s ∨ ∃ m, m ∈ l ∧ Owned.extensionIdentifier m = x.
Proof.
  revert s. induction l as [|m l IH]; intros s; simpl.
  - split; [by left|]. intros [?|(m & Hm & _)]; [done|].
    by apply elem_of_nil in Hm.
  - rewrite IH, elem_of_union, elem_of_singleton. split.
    + intros [[->|?]|(m' & Hm' & <-)].
      * right. exists m. split; [apply elem_of_cons; by left|done].
      * by left.
      * right. exists m'. split; [apply elem_of_cons; by right|done].
    + intros [?|(m' & Hm' & <-)]; [left; by right|].
      apply elem_of_cons in Hm' as [->|Hm']; [left; by left|].
      right. by exists m'.
Qed.

Lemma fold_pushWhen {A : Type} (keep : A → bool) (l acc : list A) :
  fold_left (pushWhen keep) l acc = acc ++ List.filter keep l.
Proof.
  revert acc. induction l as [|a l IH]; intros acc; simpl;
    [by rewrite app_nil_r|].
  rewrite IH. unfold pushWhen. destruct (keep a); [|done].
  by rewrite <- app_assoc.
Qed.

Lemma filter_none {A : Type} (keep : A → bool) (l : list A) :
  (∀ a, a ∈ l → keep a = false) → List.filter keep l = [].
Proof.
  induction l as [|a l IH]; intros Hall; simpl; [done|].
  rewrite Hall by (apply elem_of_cons; by left).
  apply IH. intros a' Ha'. apply Hall, elem_of_cons. by right.
Qed.

(** What [getMissingMutatorsFromArray] keeps. *)
Lemma getMissing_Some current other :
  getMissingMutatorsFromArray current (Some other)
  = undefinedIfEmpty
      (List.filter
         (fun m => bool_decide
                     (Owned.extensionIdentifier m
                      ∉ map Owned.extensionIdentifier other))
         current).
Proof.
  unfold getMissingMutatorsFromArray. rewrite fold_pushWhen. simpl.
  f_equal. apply filter_ext. intros m. apply bool_decide_ext.
  rewrite elem_of_extension_set, list_elem_of_fmap. split.
  - intros Hnot (m' & Heq & Hm'). apply Hnot. right. by exists m'.
  - intros Hnot [Hin|(m' & Hm' & Heq)]; [by apply elem_of_empty in Hin|].
    apply Hnot. by exists m'.
Qed.

Lemma getMissing_self current :
  getMissingMutatorsFromArray current (Some current) = None.
Proof.
  rewrite getMissing_Some.
  replace (List.filter _ current) with (@nil Owned.t); [done|].
  symmetry. apply filter_none. intros m Hm.
  apply bool_decide_eq_false. intros Hnot. apply Hnot.
  apply list_elem_of_fmap. by exists m.
Qed.

(** The helper map of [getChangedMutatorsFromArray]. *)
Lemma extension_map_miss (l : list Owned.t) (acc : gmap string Owned.t) x :
  x ∉ map Owned.extensionIdentifier l →
  fold_left (fun acc m => <[Owned.extensionIdentifier m := m]> acc) l acc !! x
  = acc !! x.
Proof.
  revert acc. induction l as [|m l IH]; intros acc Hx; simpl in *; [done|].
  apply not_elem_of_cons in Hx as [Hne Hx].
  rewrite IH by done. by apply lookup_insert_ne.
Qed.

Lemma extension_map_lookup (l : list Owned.t) (acc : gmap string Owned.t) m :
  NoDup (map Owned.extensionIdentifier l) → m ∈ l →
  fold_left (fun acc m => <[Owned.extensionIdentifier m := m]> acc) l acc
    !! Owned.extensionIdentifier m = Some m.
Proof.
  revert acc. induction l as [|m0 l IH]; intros acc Hnd Hm; simpl in *.
  - by apply elem_of_nil in Hm.
  - apply NoDup_cons in Hnd as [Hfresh Hnd].
    apply elem_of_cons in Hm as [->|Hm]; [|by apply IH].
    rewrite extension_map_miss by done. apply lookup_insert_eq.
Qed.

Lemma extension_map_Some (l : list Owned.t) x m :
  NoDup (map Owned.extensionIdentifier l) →
  fold_left (fun acc m => <[Owned.extensionIdentifier m := m]> acc) l
    (∅ : gmap string Owned.t) !! x
  = Some m
  ↔ m ∈ l ∧ Owned.extensionIdentifier m = x.
Proof.
  intros Hnd. split.
  - intros Hlook.
    destruct (decide (x ∈ map Owned.extensionIdentifier l)) as [Hin|Hnotin].
    + apply list_elem_of_fmap in Hin as (m' & -> & Hm').
      rewrite extension_map_lookup in Hlook by done.
      by injection Hlook as <-.
    + by rewrite extension_map_miss in Hlook.
  - intros [Hm <-]. by apply extension_map_lookup.
Qed.

Lemma fold_changed (M : gmap string Owned.t) (l acc : list Owned.t) :
  fold_left
    (fun result mutator =>
       match M !! Owned.extensionIdentifier mutator with
       | Some otherMutator =>
           if differs mutator otherMutator
           then result ++ [otherMutator] else result
       | None => result
       end) l acc
  = acc ++ omap (changedCounterpart M) l.
Proof.
  revert acc. induction l as [|m l IH]; intros acc; simpl;
    [by rewrite app_nil_r|].
  rewrite IH. unfold changedCounterpart at 2.
  destruct (M !! _) as [om|]; [|done].
  destruct (differs m om); [|done]. by rewrite <- app_assoc.
Qed.

Lemma differs_self m : differs m m = false.
Proof.
  unfold differs. by rewrite !bool_decide_eq_false_2 by (intros H; by apply H).
Qed.

Lemma omap_none {A B : Type} (f : A → option B) (l : list A) :
  (∀ a, a ∈ l → f a = None) → omap f l = [].
Proof.
  induction l as [|a l IH]; intros Hall; simpl; [done|].
  rewrite Hall by (apply elem_of_cons; by left).
  apply IH. intros a' Ha'. apply Hall, elem_of_cons. by right.
Qed.

Lemma getChanged_self current :
  NoDup (map Owned.extensionIdentifier current) →
  getChangedMutatorsFromArray current (Some current) = None.
Proof.
  intros Hnd. unfold getChangedMutatorsFromArray.
  rewrite fold_changed, omap_none; [done|].
  intros m Hm. unfold changedCounterpart.
  rewrite extension_map_lookup by done. by rewrite differs_self.
Qed.

(** The loops of [diff], for any helper [g]. *)
Lemma fold_setIfDefined_unchanged
    (g : string → list Owned.t → option (list Owned.t))
    (l : VariableMap) (acc : VariableMap) :
  (∀ e, e ∈ l → g (fst e) (snd e) = None) →
  fold_left (fun acc '(variable, ms) => setIfDefined acc variable (g variable ms))
    l acc = acc.
Proof.
  revert acc. induction l as [|[v ms] l IH]; intros acc Hall; simpl; [done|].
  assert (g v ms = None) as ->
    by (apply (Hall (v, ms)), elem_of_cons; by left). simpl.
  apply IH. intros e He. apply Hall, elem_of_cons. by right.
Qed.

Lemma get_fold_setIfDefined
    (g : string → list Owned.t → option (list Owned.t))
    (l : VariableMap) (acc : VariableMap) variable :
  NoDup (JsMap.keys l) →
  JsMap.get
    (fold_left
       (fun acc '(variable, ms) => setIfDefined acc variable (g variable ms))
       l acc) variable
  = match JsMap.get l variable with
    | Some ms =>
        match g variable ms with
        | Some result => Some result
        | None => JsMap.get acc variable
        end
    | None => JsMap.get acc variable
    end.
Proof.
  unfold JsMap.keys. revert acc.
  induction l as [|[v ms] l IH]; intros acc Hnd; simpl in *; [done|].
  apply NoDup_cons in Hnd as [Hfresh Hnd]. rewrite IH by done.
  destruct (decide (variable = v)) as [->|Hne].
  - apply get_None_keys in Hfresh. rewrite Hfresh.
    destruct (g v ms); simpl; [apply get_set_eq|done].
  - destruct (g v ms); simpl; [|done].
    by rewrite get_set_ne by done.
Qed.

Lemma diff_self_None X : MergedOk X → diff X X = None.
Proof.
  intros [Hkeys Hexts]. apply diff_None_iff.
  unfold diffAdded, diffChanged, diffRemoved.
  rewrite
    (fold_setIfDefined_unchanged
       (fun variable ms =>
          getMissingMutatorsFromArray ms (JsMap.get X variable))),
    (fold_setIfDefined_unchanged
       (fun variable ms =>
          getChangedMutatorsFromArray ms (JsMap.get X variable)));
    [done| |].
  - intros [v ms] He. simpl. rewrite (elem_of_get X v ms) by done.
    apply getChanged_self. by apply (Hexts (v, ms)).
  - intros [v ms] He. simpl. rewrite (elem_of_get X v ms) by done.
    apply getMissing_self.
Qed.

(** ** Merged collections of well-formed input are well formed *)

Lemma mergeMutator_NoDup_keys owningWorkspace e vm m :
  NoDup (JsMap.keys vm) →
  NoDup (JsMap.keys (mergeMutator owningWorkspace e vm m)).
Proof.
  intros Hnd. unfold mergeMutator.
  destruct (scopedOut _ _); [done|].
  destruct (JsMap.get vm _) as [entry|]; simpl.
  - destruct (firstIsReplace entry); [done|]. by apply NoDup_keys_set.
  - by do 2 apply NoDup_keys_set.
Qed.

Lemma merged_NoDup_keys collections owningWorkspace :
  NoDup (JsMap.keys (mergedVariableMap collections owningWorkspace)).
Proof.
  rewrite mergedVariableMap_flat.
  assert (NoDup (JsMap.keys (@JsMap.empty (list Owned.t)))) as Hnd
    by constructor.
  revert Hnd. generalize (@JsMap.empty (list Owned.t)).
  induction (mutatorsInOrder collections) as [|em ems IH]; intros vm Hnd;
    simpl; [done|].
  by apply IH, mergeMutator_NoDup_keys.
Qed.

Lemma visitorsOf_app variable ems1 ems2 :
  visitorsOf variable (ems1 ++ ems2)
  = visitorsOf variable ems1 ++ visitorsOf variable ems2.
Proof. unfold visitorsOf. by rewrite List.filter_app, map_app. Qed.

Lemma elem_of_visitorsOf variable ems e :
  e ∈ visitorsOf variable ems
  ↔ ∃ m, (e, m) ∈ ems ∧ Mutator.variable m = variable.
Proof.
  unfold visitorsOf. rewrite list_elem_of_fmap. split.
  - intros ([e' m] & -> & Hin). apply list_elem_of_In, filter_In in Hin.
    destruct Hin as [Hin Hvar]. apply bool_decide_eq_true in Hvar.
    exists m. by rewrite list_elem_of_In.
  - intros (m & Hin & Hvar). exists (e, m). split; [done|].
    apply list_elem_of_In, filter_In. rewrite <- list_elem_of_In.
    split; [done|]. by apply bool_decide_eq_true.
Qed.

(** An extension occurs at most once in a sequence when it visits the
    variable at most once. *)
Lemma fold_NoDup_extensions owningWorkspace variable ems :
  NoDup (visitorsOf variable ems) →
  NoDup (map Owned.extensionIdentifier
           (fold_left (seqStep owningWorkspace variable) ems [])).
Proof.
  induction ems as [|em ems IH] using rev_ind; [constructor|].
  rewrite visitorsOf_app, fold_left_app. intros Hnd.
  apply NoDup_app in Hnd as (Hems & Hdisj & _). simpl.
  unfold seqStep at 1.
  destruct (scopedOut _ _); [by apply IH|].
  destruct (decide _) as [Hvar|]; [|by apply IH].
  destruct (firstIsReplace _); [by apply IH|].
  simpl. apply NoDup_cons. split; [|by apply IH].
  intros Hin. apply list_elem_of_fmap in Hin as (x & Hext & Hx).
  apply fold_origin in Hx as [Hx|(em' & Hem' & -> & _ & Hvar')];
    [by apply elem_of_nil in Hx|].
  simpl in Hext. apply (Hdisj (fst em)).
  - apply elem_of_visitorsOf. exists (snd em'). rewrite Hext.
    by destruct em'.
  - apply elem_of_visitorsOf. exists (snd em).
    split; [|done]. apply list_elem_of_singleton. by destruct em.
Qed.

Lemma visitorsOf_collection variable e (kms : JsMap.t Mutator.t) :
  NoDup (map (fun km => Mutator.variable (snd km)) kms) →
  NoDup (visitorsOf variable (map (fun km => (e, snd km)) kms)).
Proof.
  induction kms as [|km kms IH]; [constructor|].
  simpl. intros Hnd. apply NoDup_cons in Hnd as [Hfresh Hnd].
  unfold visitorsOf in *. simpl.
  destruct (bool_decide _) eqn:Hvar; [|by apply IH].
  apply bool_decide_eq_true in Hvar. simpl.
  apply NoDup_cons. split; [|by apply IH].
  intros Hin. apply (elem_of_visitorsOf variable) in Hin as (m & Hm & Hvarm).
  apply list_elem_of_fmap in Hm as (km' & [= ->] & Hkm').
  apply Hfresh. apply list_elem_of_fmap. exists km'.
  split; [congruence|done].
Qed.

Lemma CollectionsOk_visitors collections variable :
  CollectionsOk collections →
  NoDup (visitorsOf variable (mutatorsInOrder collections)).
Proof.
  intros [Hkeys Hvars].
  induction collections as [|[e c] cs IH]; [constructor|].
  unfold JsMap.keys in Hkeys. simpl in Hkeys.
  apply NoDup_cons in Hkeys as [Hfresh Hkeys].
  change (mutatorsInOrder ((e, c) :: cs))
    with (map (fun km => (e, snd km)) (map_ c) ++ mutatorsInOrder cs).
  rewrite visitorsOf_app. apply NoDup_app. split_and!.
  - apply visitorsOf_collection, (Hvars (e, c)), elem_of_cons. by left.
  - intros x Hx Hx'.
    apply elem_of_visitorsOf in Hx as (m & Hm & _).
    apply list_elem_of_fmap in Hm as (km & [= -> _] & _).
    apply elem_of_visitorsOf in Hx' as (m' & Hm' & _).
    apply elem_of_mutatorsInOrder in Hm' as (c' & k & Hc' & _).
    apply Hfresh. apply list_elem_of_fmap. by exists (e, c').
  - apply IH; [done|]. intros c' Hc'. apply Hvars, elem_of_cons. by right.
Qed.

Lemma merged_MergedOk collections owningWorkspace :
  CollectionsOk collections →
  MergedOk (mergedVariableMap collections owningWorkspace).
Proof.
  intros Hok. split; [apply merged_NoDup_keys|].
  intros [v seq] Hin. simpl.
  apply elem_of_get in Hin; [|apply merged_NoDup_keys].
  assert (seq = seqOf (mergedVariableMap collections owningWorkspace) v)
    as -> by (unfold seqOf; by rewrite Hin).
  rewrite seqOf_merged.
  by apply fold_NoDup_extensions, CollectionsOk_visitors.
Qed.

(** C8: the diff of a merged collection with itself is [undefined], not
    an object with three empty maps; and [diff] answers [undefined] exactly
    when the added, changed and removed maps it has computed are all
    empty.  A merged collection is one whose sequences name an extension at
    most once, as the constructor builds them from collections with one
    mutator per variable. *)
Theorem diff_self_undefined :
  (∀ X, MergedOk X → diff X X = None)
  ∧ (∀ collections owningWorkspace,
       CollectionsOk collections →
       diff (mergedVariableMap collections owningWorkspace)
            (mergedVariableMap collections owningWorkspace) = None)
  ∧ (∀ current other,
       diff current other = None
       ↔ diffAdded current other = [] ∧ diffChanged current other = []
         ∧ diffRemoved current other = []).
Proof.
  split_and!.
  - apply diff_self_None.
  - intros collections owningWorkspace Hok.
    by apply diff_self_None, merged_MergedOk.
  - apply diff_None_iff.
Qed.

Lemma diff_self_undefined_witness :
  diff (mergedVariableMap prependThenAppend None)
       (mergedVariableMap prependThenAppend None) = None.
Proof.
  apply (proj1 (proj2 diff_self_undefined) prependThenAppend None).
  split.
  - apply (bool_decide_unpack (NoDup ["ext.a"; "ext.b"])). vm_compute. exact I.
  - intros c Hc. apply elem_of_cons in Hc as [->|Hc];
      [apply NoDup_singleton|].
    apply list_elem_of_singleton in Hc as ->. apply NoDup_singleton.
Defined.

(** The hypothesis of C8 is needed: when "ext.a" occurs twice in the
    sequence of FOO, the first occurrence is compared with the second. *)
Example diff_self_duplicate_extension :
  diff [("FOO", [appendOf "ext.a" "FOO" "x"; appendOf "ext.a" "FOO" "y"])]
       [("FOO", [appendOf "ext.a" "FOO" "x"; appendOf "ext.a" "FOO" "y"])]
  = Some {| added := [];
            changed := [("FOO", [appendOf "ext.a" "FOO" "y"])];
            removed := [] |}.
Proof. vm_compute. reflexivity. Qed.

(** ** Changed mutators *)

Lemma default_undefinedIfEmpty {A : Type} (l : list A) :
  default [] (undefinedIfEmpty l) = l.
Proof. by destruct l. Qed.

Lemma getChanged_Some current other :
  getChangedMutatorsFromArray current (Some other)
  = undefinedIfEmpty
      (omap (changedCounterpart
               (fold_left
                  (fun acc m => <[Owned.extensionIdentifier m := m]> acc)
                  other ∅))
         current).
Proof. unfold getChangedMutatorsFromArray. by rewrite fold_changed. Qed.

Lemma get_diffChanged current other variable cur :
  NoDup (JsMap.keys current) →
  JsMap.get current variable = Some cur →
  JsMap.get (diffChanged current other) variable
  = getChangedMutatorsFromArray cur (JsMap.get other variable).
Proof.
  intros Hnd Hget. unfold diffChanged.
  rewrite
    (get_fold_setIfDefined
       (fun variable ms =>
          getChangedMutatorsFromArray ms (JsMap.get other variable)))
    by done.
  rewrite Hget. by destruct (getChangedMutatorsFromArray _ _).
Qed.

Lemma differs_true_iff m m' :
  differs m m' = true
  ↔ Owned.type m ≠ Owned.type m' ∨ Owned.value m ≠ Owned.value m'
    ∨ scopeIndex (Owned.scope m) ≠ scopeIndex (Owned.scope m').
Proof.
  unfold differs. rewrite !orb_true_iff, !bool_decide_eq_true. tauto.
Qed.

Lemma NoDup_fmap_eq {A B : Type} (f : A → B) (l : list A) a b :
  NoDup (map f l) → a ∈ l → b ∈ l → f a = f b → a = b.
Proof.
  induction l as [|x l IH]; simpl; intros Hnd Ha Hb Heq.
  - by apply elem_of_nil in Ha.
  - apply NoDup_cons in Hnd as [Hfresh Hnd].
    apply elem_of_cons in Ha as [->|Ha]; apply elem_of_cons in Hb as [->|Hb].
    + done.
    + exfalso. apply Hfresh. rewrite Heq. apply list_elem_of_fmap. by exists b.
    + exfalso. apply Hfresh. rewrite <- Heq. apply list_elem_of_fmap.
      by exists a.
    + by apply IH.
Qed.

(** Exactly one mutator of [l] has an answer. *)
Lemma omap_single {A B : Type} (f : A → option B) (l : list A) a b :
  NoDup l → a ∈ l → f a = Some b →
  (∀ a', a' ∈ l → a' ≠ a → f a' = None) →
  omap f l = [b].
Proof.
  intros Hnd Ha Hfa Hothers.
  apply list_elem_of_split in Ha as (l1 & l2 & ->).
  apply NoDup_app in Hnd as (_ & Hdisj & Hnd2).
  apply NoDup_cons in Hnd2 as [Hfresh _].
  rewrite omap_app. simpl. rewrite Hfa, !omap_none; [done| |].
  - intros a' Ha'. apply Hothers.
    + apply elem_of_app. right. apply elem_of_cons. by right.
    + by intros ->.
  - intros a' Ha'. apply Hothers.
    + apply elem_of_app. by left.
    + intros ->. apply (Hdisj a Ha'). apply elem_of_cons. by left.
Qed.

(** C9: when the Append of extension E has one value in [current] and
    another in [other], and no other extension has changed its mutator for
    the variable, [changed] holds for that variable exactly E's mutator of
    [other].  In general [changed] holds the mutators of [other] whose
    extension has in [current] a mutator that differs in type, value or
    workspace folder index. *)
Theorem changed_reports_other :
  (∀ (current other : VariableMap) variable cur oth mc mo,
     NoDup (JsMap.keys current) →
     JsMap.get current variable = Some cur →
     JsMap.get other variable = Some oth →
     NoDup (map Owned.extensionIdentifier cur) →
     NoDup (map Owned.extensionIdentifier oth) →
     mc ∈ cur → mo ∈ oth →
     Owned.extensionIdentifier mc = Owned.extensionIdentifier mo →
     Owned.type mc = Append → Owned.type mo = Append →
     Owned.value mc ≠ Owned.value mo →
     (∀ m m', m ∈ cur → m' ∈ oth →
              Owned.extensionIdentifier m = Owned.extensionIdentifier m' →
              Owned.extensionIdentifier m ≠ Owned.extensionIdentifier mc →
              differs m m' = false) →
     JsMap.get (changedOf (diff current other)) variable = Some [mo])
  ∧ (∀ (cur oth : list Owned.t) m',
       NoDup (map Owned.extensionIdentifier oth) →
       m' ∈ default [] (getChangedMutatorsFromArray cur (Some oth))
       ↔ m' ∈ oth
         ∧ ∃ m, m ∈ cur
                ∧ Owned.extensionIdentifier m = Owned.extensionIdentifier m'
                ∧ (Owned.type m ≠ Owned.type m'
                   ∨ Owned.value m ≠ Owned.value m'
                   ∨ scopeIndex (Owned.scope m)
                     ≠ scopeIndex (Owned.scope m'))).
Proof.
  split.
  - intros current other variable cur oth mc mo Hkeys Hcur Hoth Hndc Hndo
      Hmc Hmo Hext Htc Hto Hval Hsame.
    rewrite changedOf_diff, (get_diffChanged _ _ _ cur), Hoth by done.
    rewrite getChanged_Some.
    rewrite (omap_single _ cur mc mo); [done| |done| |].
    + by apply NoDup_fmap_1 in Hndc.
    + unfold changedCounterpart.
      rewrite Hext, extension_map_lookup by done.
      replace (differs mc mo) with true; [done|].
      symmetry. apply differs_true_iff. right. by left.
    + intros m Hm Hne. unfold changedCounterpart.
      destruct (_ !! _) as [m'|] eqn:Hlook; [|done].
      apply extension_map_Some in Hlook as [Hm' Hext']; [|done].
      rewrite Hsame; [done..|].
      intros Heq. apply Hne. by apply (NoDup_fmap_eq _ _ _ _ Hndc).
  - intros cur oth m' Hndo.
    rewrite getChanged_Some, default_undefinedIfEmpty, list_elem_of_omap.
    unfold changedCounterpart. split.
    + intros (m & Hm & Hcp).
      destruct (_ !! _) as [om|] eqn:Hlook; [|done].
      destruct (differs m om) eqn:Hdiff; [|done].
      injection Hcp as ->.
      apply extension_map_Some in Hlook as [Hm' Hext]; [|done].
      split; [done|]. exists m. split_and!; [done..|].
      by apply differs_true_iff.
    + intros (Hm' & m & Hm & Hext & Hdiff). exists m. split; [done|].
      rewrite Hext, extension_map_lookup by done.
      apply differs_true_iff in Hdiff. by rewrite Hdiff.
Qed.

Lemma changed_reports_other_witness :
  JsMap.get
    (changedOf
       (diff [("FOO", [appendOf "E" "FOO" "x"; appendOf "F" "FOO" "z"])]
             [("FOO", [appendOf "F" "FOO" "z"; appendOf "E" "FOO" "y"])]))
    "FOO"
  = Some [appendOf "E" "FOO" "y"].
Proof.
  apply (proj1 changed_reports_other
           [("FOO", [appendOf "E" "FOO" "x"; appendOf "F" "FOO" "z"])]
           [("FOO", [appendOf "F" "FOO" "z"; appendOf "E" "FOO" "y"])]
           "FOO"
           [appendOf "E" "FOO" "x"; appendOf "F" "FOO" "z"]
           [appendOf "F" "FOO" "z"; appendOf "E" "FOO" "y"]
           (appendOf "E" "FOO" "x") (appendOf "E" "FOO" "y"));
    try reflexivity; try discriminate.
  - apply NoDup_singleton.
  - apply (bool_decide_unpack (NoDup ["E"; "F"])). vm_compute. exact I.
  - apply (bool_decide_unpack (NoDup ["F"; "E"])). vm_compute. exact I.
  - apply elem_of_cons. by left.
  - apply elem_of_cons. right. apply elem_of_cons. by left.
  - intros m m' Hm Hm' Hext Hne.
    apply elem_of_cons in Hm as [->|Hm]; [done|].
    apply list_elem_of_singleton in Hm as ->.
    apply elem_of_cons in Hm' as [->|Hm']; [reflexivity|].
    apply list_elem_of_singleton in Hm' as ->. discriminate Hext.
Defined.

(** ** Further worked examples *)

(** Registration order a, b with two Appends: the mutator of "ext.b" is
    applied first. *)
Example reverse_registration_order :
  applyWithoutResolver false
    (mergedVariableMap
       [("ext.a", collectionOf (Mutator.mk "FOO" "a" Append None));
        ("ext.b", collectionOf (Mutator.mk "FOO" "b" Append None))] None)
    []
  = (Fulfilled, [("FOO", Some "ba")]).
Proof. vm_compute. reflexivity. Qed.

(** A Replace registered after an Append is first in the sequence and the
    Append stays behind it. *)
Example merge_append_then_replace :
  mergedVariableMap appendThenReplace None
  = [("FOO", [Owned.mk "ext.b" "2" Replace None "FOO";
              Owned.mk "ext.a" "1" Append None "FOO"])].
Proof. reflexivity. Qed.

(** A Replace that the scope filter drops does not stop later mutators. *)
Example merge_scoped_replace_then_append :
  mergedVariableMap scopedReplaceThenAppend (Some folder1)
  = [("FOO", [Owned.mk "ext.b" "2" Append None "FOO"])].
Proof. reflexivity. Qed.

(** When two keys of the environment differ only in case, the later one
    is the one a variable resolves to. *)
Example two_keys_same_lower_case :
  applyWithoutResolver true [("Path", [appendOf "ext.a" "Path" "x"])]
    [("PATH", Some "a"); ("path", Some "b")]
  = (Fulfilled, [("PATH", Some "a"); ("path", Some "bx")]).
Proof. vm_compute. reflexivity. Qed.

(** ** Further properties of the constructor *)

Lemma fold_seqStep_closed owningWorkspace variable ems acc :
  firstIsReplace acc = false →
  fold_left (seqStep owningWorkspace variable) ems acc
  = rev (map ownedOf (uptoFirstReplace (passingFor owningWorkspace variable ems)))
    ++ acc.
Proof.
  revert acc. induction ems as [|em ems IH]; intros acc Hacc; simpl; [done|].
  unfold seqStep at 2.
  destruct (scopedOut owningWorkspace (snd em)) eqn:Hscope; simpl;
    [by apply IH|].
  destruct (decide _) as [Hvar|Hvar].
  - rewrite bool_decide_eq_true_2 by done. rewrite Hacc. simpl.
    destruct (bool_decide (Mutator.type (snd em) = Replace)) eqn:Hty.
    + rewrite fold_frozen; [done|]. simpl. exact Hty.
    + rewrite IH by (simpl; exact Hty). simpl. by rewrite <- app_assoc.
  - rewrite bool_decide_eq_false_2 by done. by apply IH.
Qed.

Lemma seqOf_merged_closed collections owningWorkspace variable :
  seqOf (mergedVariableMap collections owningWorkspace) variable
  = rev (map ownedOf
           (uptoFirstReplace
              (passingFor owningWorkspace variable
                 (mutatorsInOrder collections)))).
Proof.
  rewrite seqOf_merged, fold_seqStep_closed by done. apply app_nil_r.
Qed.

(** X1: the sequence of a variable, in closed form.  Take the mutators for
    the variable that pass the scope filter in visiting order (extensions
    in registration order, each collection in its own order) and cut the
    list after its first Replace: the sequence is that list reversed. *)
Theorem merged_sequence_closed_form collections owningWorkspace variable :
  seqOf (mergedVariableMap collections owningWorkspace) variable
  = rev (map ownedOf
           (uptoFirstReplace
              (passingFor owningWorkspace variable
                 (mutatorsInOrder collections)))).
Proof. apply seqOf_merged_closed. Qed.

Lemma elem_of_uptoFirstReplace ems em :
  em ∈ uptoFirstReplace ems → em ∈ ems.
Proof.
  induction ems as [|em0 ems IH]; simpl; [done|].
  destruct (bool_decide _).
  - intros Hin. apply list_elem_of_singleton in Hin as ->.
    apply elem_of_cons. by left.
  - intros Hin. apply elem_of_cons in Hin as [->|Hin];
      apply elem_of_cons; [by left|right; by apply IH].
Qed.

Lemma elem_of_passingFor owningWorkspace variable ems em :
  em ∈ passingFor owningWorkspace variable ems
  ↔ em ∈ ems ∧ scopedOut owningWorkspace (snd em) = false
    ∧ Mutator.variable (snd em) = variable.
Proof.
  unfold passingFor. rewrite list_elem_of_In, filter_In, <- list_elem_of_In.
  rewrite andb_true_iff, negb_true_iff, bool_decide_eq_true. tauto.
Qed.

(** X2: every entry of a merged collection is the copy of a mutator of the
    input that passes the scope filter, it carries the identifier of the
    extension that contributed it, and its [variable] is the key under
    which it is stored. *)
Theorem merged_entries_come_from_input collections owningWorkspace variable x :
  x ∈ seqOf (mergedVariableMap collections owningWorkspace) variable →
  Owned.variable x = variable
  ∧ ∃ e c k m,
      (e, c) ∈ collections ∧ (k, m) ∈ map_ c
      ∧ scopedOut owningWorkspace m = false
      ∧ x = owned e m.
Proof.
  rewrite seqOf_merged_closed, list_elem_of_In, <- in_rev,
    <- list_elem_of_In, list_elem_of_fmap.
  intros ([e m] & -> & Hin).
  apply elem_of_uptoFirstReplace, elem_of_passingFor in Hin
    as (Hin & Hscope & Hvar).
  simpl in *. split; [done|].
  apply elem_of_mutatorsInOrder in Hin as (c & k & Hc & Hm).
  by exists e, c, k, m.
Qed.

Lemma merged_entries_come_from_input_witness :
  Owned.variable (Owned.mk "ext.b" "2" Append None "FOO") = "FOO"
  ∧ ∃ e c k m,
      (e, c) ∈ prependThenAppend ∧ (k, m) ∈ map_ c
      ∧ scopedOut None m = false
      ∧ Owned.mk "ext.b" "2" Append None "FOO" = owned e m.
Proof.
  apply (merged_entries_come_from_input prependThenAppend None "FOO").
  apply elem_of_cons. by left.
Defined.

(** The map never holds an empty array. *)
Lemma mergeStep_nonempty owningWorkspace vm em :
  (∀ v seq, JsMap.get vm v = Some seq → seq ≠ []) →
  ∀ v seq, JsMap.get (mergeStep owningWorkspace vm em) v = Some seq → seq ≠ [].
Proof.
  intros Hvm v seq. unfold mergeStep, mergeMutator.
  destruct (scopedOut _ _); [apply Hvm|].
  destruct (JsMap.get vm (Mutator.variable (snd em))) as [entry|] eqn:Hget;
    simpl.
  - destruct (firstIsReplace entry); [apply Hvm|].
    rewrite get_set. destruct (decide _); [by intros [= <-]|apply Hvm].
  - rewrite get_set. destruct (decide _); [by intros [= <-]|].
    rewrite get_set. destruct (decide _); [done|apply Hvm].
Qed.

Lemma merged_nonempty collections owningWorkspace variable seq :
  JsMap.get (mergedVariableMap collections owningWorkspace) variable
  = Some seq →
  seq ≠ [].
Proof.
  rewrite mergedVariableMap_flat.
  assert (∀ v seq, JsMap.get (@JsMap.empty (list Owned.t)) v = Some seq →
                   seq ≠ []) as Hempty by done.
  revert Hempty variable seq. generalize (@JsMap.empty (list Owned.t)).
  induction (mutatorsInOrder collections) as [|em ems IH]; intros vm Hvm;
    simpl; [done|].
  by apply IH, mergeStep_nonempty.
Qed.

Lemma uptoFirstReplace_nil ems : uptoFirstReplace ems = [] ↔ ems = [].
Proof.
  destruct ems as [|em ems]; simpl; [done|]. by destruct (bool_decide _).
Qed.

(** X3: a variable is a key of the merged collection exactly when some
    mutator for it passes the scope filter, and the sequence stored under a
    key is never empty. *)
Theorem merged_keys collections owningWorkspace variable :
  (variable ∈ JsMap.keys (mergedVariableMap collections owningWorkspace)
   ↔ ∃ e c k m,
       (e, c) ∈ collections ∧ (k, m) ∈ map_ c
       ∧ Mutator.variable m = variable
       ∧ scopedOut owningWorkspace m = false)
  ∧ (∀ seq,
       JsMap.get (mergedVariableMap collections owningWorkspace) variable
       = Some seq →
       seq ≠ []).
Proof.
  split; [|apply merged_nonempty].
  pose proof (seqOf_merged_closed collections owningWorkspace variable)
    as Hclosed.
  rewrite <- get_Some_keys. split.
  - intros [seq Hget].
    assert (seq ≠ []) as Hne by by eapply merged_nonempty.
    unfold seqOf in Hclosed. rewrite Hget in Hclosed. simpl in Hclosed.
    destruct (passingFor owningWorkspace variable (mutatorsInOrder collections))
      as [|[e m] rest] eqn:Hpass; [by subst seq|].
    assert ((e, m) ∈ passingFor owningWorkspace variable
                       (mutatorsInOrder collections)) as Hin
      by (rewrite Hpass; apply elem_of_cons; by left).
    apply elem_of_passingFor in Hin as (Hin & Hscope & Hvar).
    apply elem_of_mutatorsInOrder in Hin as (c & k & Hc & Hm).
    by exists e, c, k, m.
  - intros (e & c & k & m & Hc & Hm & Hvar & Hscope).
    assert ((e, m) ∈ passingFor owningWorkspace variable
                       (mutatorsInOrder collections)) as Hin.
    { apply elem_of_passingFor. split_and!; [|done..].
      apply elem_of_mutatorsInOrder. by exists c, k. }
    destruct (JsMap.get _ variable) as [seq|] eqn:Hget; [by eexists|].
    unfold seqOf in Hclosed. rewrite Hget in Hclosed. simpl in Hclosed.
    symmetry in Hclosed. apply (f_equal (@rev _)) in Hclosed.
    rewrite rev_involutive in Hclosed. simpl in Hclosed.
    apply map_eq_nil in Hclosed.
    apply (proj1 (uptoFirstReplace_nil _)) in Hclosed.
    rewrite Hclosed in Hin. by apply elem_of_nil in Hin.
Qed.

Lemma merged_keys_witness :
  "FOO" ∈ JsMap.keys (mergedVariableMap prependThenAppend None).
Proof.
  apply (proj1 (merged_keys prependThenAppend None "FOO")).
  exists "ext.a", (collectionOf (Mutator.mk "FOO" "1" Prepend None)),
    "FOO", (Mutator.mk "FOO" "1" Prepend None).
  split_and!; try reflexivity.
  - apply elem_of_cons. by left.
  - apply list_elem_of_singleton. reflexivity.
Defined.

(** ** Further properties of [applyToProcessEnvironment] *)







Section ApplyFrame.

Context {R : Type}.
Implicit Types (variableResolver : option (VariableResolver (R := R))).

Lemma applyMutators_fulfils variableResolver k ms env r :
  neverRejects variableResolver →
  fst (fst (applyMutators variableResolver k ms env r)) = Fulfilled.
Proof.
  intros Hok. revert env r. induction ms as [|m ms IH]; intros env r; simpl;
    [done|].
  pose proof (Hok r (Owned.value m)) as Hm.
  destruct (resolveValue _ _ _) as [[value|] r']; [apply IH|done].
Qed.

Lemma applyVariables_fulfils variableResolver lower vm env r :
  neverRejects variableResolver →
  fst (fst (applyVariables variableResolver lower vm env r)) = Fulfilled.
Proof.
  intros Hok. revert env r. induction vm as [|[v ms] vm IH]; intros env r;
    simpl; [done|].
  pose proof (applyMutators_fulfils variableResolver
                (actualVariableName lower v) ms env r Hok) as Hms.
  destruct (applyMutators _ _ _ _ _) as [[[|] env'] r']; [apply IH|done].
Qed.





End ApplyFrame.

(** X4: a call whose resolver answers every call is fulfilled; in
    particular a call without resolver never rejects. *)
Theorem apply_fulfils_unless_resolver_rejects {R : Type} (isWindows : bool)
    vm env (variableResolver : option (VariableResolver (R := R))) r :
  neverRejects variableResolver →
  fst (fst (applyToProcessEnvironment isWindows vm env variableResolver r))
  = Fulfilled.
Proof. intros Hok. by apply applyVariables_fulfils. Qed.

Lemma apply_fulfils_unless_resolver_rejects_witness :
  fst (fst (applyToProcessEnvironment (R := unit) true
              (mergedVariableMap prependThenAppend None)
              [("FOO", Some "X")] None tt))
  = Fulfilled.
Proof.
  apply (apply_fulfils_unless_resolver_rejects (R := unit) true).
  intros r str. simpl. discriminate.
Defined.



















(** ** Further properties of [diff] *)

Lemma get_diffAdded this other variable :
  NoDup (JsMap.keys other) →
  JsMap.get (diffAdded this other) variable
  = match JsMap.get other variable with
    | Some ms => getMissingMutatorsFromArray ms (JsMap.get this variable)
    | None => None
    end.
Proof.
  intros Hnd. unfold diffAdded.
  rewrite
    (get_fold_setIfDefined
       (fun variable ms =>
          getMissingMutatorsFromArray ms (JsMap.get this variable)))
    by done.
  destruct (JsMap.get other variable); [|done].
  by destruct (getMissingMutatorsFromArray _ _).
Qed.

Lemma get_diffRemoved this other variable :
  NoDup (JsMap.keys this) →
  JsMap.get (diffRemoved this other) variable
  = match JsMap.get this variable with
    | Some ms => getMissingMutatorsFromArray ms (JsMap.get other variable)
    | None => None
    end.
Proof. apply (get_diffAdded other this). Qed.

Lemma get_diffChanged_None this other variable :
  NoDup (JsMap.keys this) →
  JsMap.get this variable = None →
  JsMap.get (diffChanged this other) variable = None.
Proof.
  intros Hnd Hget. unfold diffChanged.
  rewrite
    (get_fold_setIfDefined
       (fun variable ms =>
          getChangedMutatorsFromArray ms (JsMap.get other variable)))
    by done.
  by rewrite Hget.
Qed.

(** X10: a variable that only [other] has is added with its whole
    sequence, and nothing is removed or changed for it; a variable that
    only [current] has is removed with its whole sequence, and nothing is
    added or changed for it. *)
Theorem diff_variable_on_one_side (current other : VariableMap) variable seq :
  NoDup (JsMap.keys current) → NoDup (JsMap.keys other) →
  (JsMap.get current variable = None → JsMap.get other variable = Some seq →
   JsMap.get (diffAdded current other) variable = Some seq
   ∧ JsMap.get (diffRemoved current other) variable = None
   ∧ JsMap.get (diffChanged current other) variable = None)
  ∧ (JsMap.get current variable = Some seq → JsMap.get other variable = None →
     JsMap.get (diffRemoved current other) variable = Some seq
     ∧ JsMap.get (diffAdded current other) variable = None
     ∧ JsMap.get (diffChanged current other) variable = None).
Proof.
  intros Hc Ho. split; intros Hgc Hgo.
  - rewrite get_diffAdded, get_diffRemoved, get_diffChanged_None by done.
    by rewrite Hgc, Hgo.
  - rewrite get_diffAdded, get_diffRemoved, (get_diffChanged _ _ _ seq)
      by done.
    by rewrite Hgc, Hgo.
Qed.

Lemma diff_variable_on_one_side_witness :
  JsMap.get
    (diffAdded [("FOO", [appendOf "ext.a" "FOO" "1"])]
               [("FOO", [appendOf "ext.a" "FOO" "1"]);
                ("BAR", [appendOf "ext.b" "BAR" "2"])])
    "BAR"
  = Some [appendOf "ext.b" "BAR" "2"].
Proof.
  refine (proj1 (proj1 (diff_variable_on_one_side
                          [("FOO", [appendOf "ext.a" "FOO" "1"])]
                          [("FOO", [appendOf "ext.a" "FOO" "1"]);
                           ("BAR", [appendOf "ext.b" "BAR" "2"])]
                          "BAR" [appendOf "ext.b" "BAR" "2"] _ _)
                  eq_refl eq_refl)).
  - apply NoDup_singleton.
  - apply (bool_decide_unpack (NoDup ["FOO"; "BAR"])). vm_compute. exact I.
Defined.

Lemma elem_of_List_filter {A : Type} (keep : A → bool) (l : list A) x :
  x ∈ List.filter keep l ↔ x ∈ l ∧ keep x = true.
Proof. by rewrite list_elem_of_In, filter_In, <- list_elem_of_In. Qed.

Lemma List_filter_sublist {A : Type} (keep : A → bool) (l : list A) :
  List.filter keep l `sublist_of` l.
Proof.
  induction l as [|a l IH]; simpl; [done|].
  destruct (keep a); [by apply sublist_skip|by apply sublist_cons].
Qed.

Lemma filter_all {A : Type} (keep : A → bool) (l : list A) :
  (∀ a, a ∈ l → keep a = true) → List.filter keep l = l.
Proof.
  induction l as [|a l IH]; intros Hall; simpl; [done|].
  rewrite Hall by (apply elem_of_cons; by left).
  rewrite IH; [done|]. intros a' Ha'. apply Hall, elem_of_cons. by right.
Qed.

Lemma seqOf_getMissing (ms : list Owned.t) (cur : option (list Owned.t)) :
  default [] (getMissingMutatorsFromArray ms cur)
  = List.filter
      (fun m => bool_decide
                  (Owned.extensionIdentifier m
                   ∉ map Owned.extensionIdentifier (default [] cur)))
      ms.
Proof.
  destruct cur as [cur|].
  - by rewrite getMissing_Some, default_undefinedIfEmpty.
  - symmetry. apply filter_all. intros m _.
    apply bool_decide_eq_true. apply not_elem_of_nil.
Qed.

Lemma seqOf_diffAdded this other variable :
  NoDup (JsMap.keys other) →
  seqOf (diffAdded this other) variable
  = List.filter
      (fun m => bool_decide
                  (Owned.extensionIdentifier m
                   ∉ map Owned.extensionIdentifier (seqOf this variable)))
      (seqOf other variable).
Proof.
  intros Hnd. unfold seqOf. rewrite get_diffAdded by done.
  destruct (JsMap.get other variable) as [ms|]; [|done].
  apply seqOf_getMissing.
Qed.

(** X11: what [added] holds for a variable: the mutators of [other] whose
    extension has no mutator for that variable in [current], in the order
    they have in [other]. *)
Theorem diff_added_characterised (current other : VariableMap) variable :
  NoDup (JsMap.keys other) →
  (∀ m, m ∈ seqOf (diffAdded current other) variable
        ↔ m ∈ seqOf other variable
          ∧ Owned.extensionIdentifier m
            ∉ map Owned.extensionIdentifier (seqOf current variable))
  ∧ seqOf (diffAdded current other) variable
    `sublist_of` seqOf other variable.
Proof.
  intros Hnd. rewrite seqOf_diffAdded by done. split.
  - intros m. by rewrite elem_of_List_filter, bool_decide_eq_true.
  - apply List_filter_sublist.
Qed.

Lemma diff_added_characterised_witness :
  seqOf
    (diffAdded [("FOO", [appendOf "ext.a" "FOO" "1"])]
               [("FOO", [appendOf "ext.c" "FOO" "3";
                         appendOf "ext.a" "FOO" "1";
                         appendOf "ext.b" "FOO" "2"])])
    "FOO"
  `sublist_of` [appendOf "ext.c" "FOO" "3"; appendOf "ext.a" "FOO" "1";
                appendOf "ext.b" "FOO" "2"].
Proof.
  refine (proj2 (diff_added_characterised
                   [("FOO", [appendOf "ext.a" "FOO" "1"])]
                   [("FOO", [appendOf "ext.c" "FOO" "3";
                             appendOf "ext.a" "FOO" "1";
                             appendOf "ext.b" "FOO" "2"])]
                   "FOO" _)).
  apply NoDup_singleton.
Defined.



Lemma seqOf_diffChanged this other variable :
  NoDup (JsMap.keys this) →
  seqOf (diffChanged this other) variable
  = default []
      (getChangedMutatorsFromArray (seqOf this variable)
         (JsMap.get other variable)).
Proof.
  intros Hnd. unfold seqOf.
  destruct (JsMap.get this variable) as [cur|] eqn:Hget.
  - by rewrite (get_diffChanged _ _ _ cur).
  - rewrite get_diffChanged_None by done. simpl.
    destruct (JsMap.get other variable); [|done].
    by rewrite getChanged_Some.
Qed.



Lemma nil_iff_seqOf (m : VariableMap) :
  noEmptySequence m → (m = [] ↔ ∀ v, seqOf m v = []).
Proof.
  intros Hne. split; [by intros ->|].
  destruct m as [|[k s] m]; [done|]. intros Hall. exfalso.
  apply (Hne k s).
  - simpl. by rewrite decide_True.
  - specialize (Hall k). unfold seqOf in Hall. simpl in Hall.
    by rewrite decide_True in Hall.
Qed.

Lemma undefinedIfEmpty_Some {A : Type} (l r : list A) :
  undefinedIfEmpty l = Some r → r ≠ [].
Proof. destruct l; [done|]. by intros [= <-]. Qed.

Lemma noEmpty_diffAdded this other :
  NoDup (JsMap.keys other) → noEmptySequence other →
  noEmptySequence (diffAdded this other).
Proof.
  intros Hnd Hne v seq. rewrite get_diffAdded by done.
  destruct (JsMap.get other v) as [ms|] eqn:Hget; [|done].
  destruct (JsMap.get this v) as [cur|].
  - rewrite getMissing_Some. apply undefinedIfEmpty_Some.
  - simpl. intros [= <-]. by apply (Hne v).
Qed.

Lemma noEmpty_diffChanged this other :
  NoDup (JsMap.keys this) → noEmptySequence (diffChanged this other).
Proof.
  intros Hnd v seq.
  destruct (JsMap.get this v) as [cur|] eqn:Hget.
  - rewrite (get_diffChanged _ _ _ cur) by done.
    destruct (JsMap.get other v) as [oth|]; [|done].
    rewrite getChanged_Some. apply undefinedIfEmpty_Some.
  - by rewrite get_diffChanged_None.
Qed.

Lemma List_filter_nil {A : Type} (keep : A → bool) (l : list A) :
  List.filter keep l = [] ↔ ∀ a, a ∈ l → keep a = false.
Proof.
  split; [|apply filter_none].
  intros Hnil a Ha. destruct (keep a) eqn:Hkeep; [|done].
  assert (a ∈ List.filter keep l) as Hin by by apply elem_of_List_filter.
  rewrite Hnil in Hin. by apply elem_of_nil in Hin.
Qed.

(** [added] is empty exactly when every extension of [other] is in
    [current], variable by variable. *)
Lemma diffAdded_nil this other :
  NoDup (JsMap.keys other) → noEmptySequence other →
  diffAdded this other = []
  ↔ ∀ v e, e ∈ map Owned.extensionIdentifier (seqOf other v) →
           e ∈ map Owned.extensionIdentifier (seqOf this v).
Proof.
  intros Hnd Hne.
  rewrite nil_iff_seqOf by by apply noEmpty_diffAdded.
  split.
  - intros Hall v e He. apply list_elem_of_fmap in He as (m & -> & Hm).
    specialize (Hall v). rewrite seqOf_diffAdded in Hall by done.
    apply (proj1 (List_filter_nil _ _)) with (a := m) in Hall; [|done].
    apply bool_decide_eq_false in Hall. by apply dec_stable.
  - intros Hsub v. rewrite seqOf_diffAdded by done.
    apply List_filter_nil. intros m Hm. apply bool_decide_eq_false.
    intros Hnot. apply Hnot, Hsub, list_elem_of_fmap. by exists m.
Qed.

Lemma omap_nil {A B : Type} (f : A → option B) (l : list A) :
  omap f l = [] ↔ ∀ a, a ∈ l → f a = None.
Proof.
  split; [|apply omap_none].
  intros Hnil a Ha. destruct (f a) as [b|] eqn:Hfa; [|done].
  assert (b ∈ omap f l) as Hin by (apply list_elem_of_omap; by exists a).
  rewrite Hnil in Hin. by apply elem_of_nil in Hin.
Qed.

(** [changed] is empty exactly when no extension has two mutators that
    differ, variable by variable. *)
Lemma diffChanged_nil this other :
  NoDup (JsMap.keys this) → MergedOk other →
  diffChanged this other = []
  ↔ ∀ v m m', m ∈ seqOf this v → m' ∈ seqOf other v →
              Owned.extensionIdentifier m = Owned.extensionIdentifier m' →
              differs m m' = false.
Proof.
  intros Hnd [Hkeys Hexts].
  rewrite nil_iff_seqOf by by apply noEmpty_diffChanged.
  assert (∀ v, seqOf (diffChanged this other) v = []
               ↔ ∀ m m', m ∈ seqOf this v → m' ∈ seqOf other v →
                         Owned.extensionIdentifier m
                         = Owned.extensionIdentifier m' →
                         differs m m' = false) as Hv.
  { intros v. rewrite seqOf_diffChanged by done.
    assert (seqOf other v = default [] (JsMap.get other v)) as -> by done.
    destruct (JsMap.get other v) as [oth|] eqn:Hget.
    - assert (NoDup (map Owned.extensionIdentifier oth)) as Hndo
        by (apply (Hexts (v, oth)); by apply get_elem_of).
      change (default [] (Some oth)) with oth.
      rewrite getChanged_Some, default_undefinedIfEmpty, omap_nil.
      unfold changedCounterpart. split.
      + intros Hall m m' Hm Hm' Hext. specialize (Hall m Hm).
        rewrite Hext, extension_map_lookup in Hall by done.
        by destruct (differs m m').
      + intros Hall m Hm.
        destruct (_ !! _) as [m'|] eqn:Hlook; [|done].
        apply extension_map_Some in Hlook as [Hm' Hext]; [|done].
        by rewrite (Hall m m').
    - split; [|intros _; reflexivity].
      intros _ m m' _ Hm'. by apply elem_of_nil in Hm'. }
  split; intros Hall v;
    [apply (proj1 (Hv v)), Hall | apply (proj2 (Hv v)), Hall].
Qed.

Lemma differs_sym m m' : differs m m' = differs m' m.
Proof.
  unfold differs. f_equal; [f_equal|]; apply bool_decide_ext;
    split; intros Hne Heq; by apply Hne.
Qed.

Lemma diff_None_sameContributions current other :
  MergedOk current → MergedOk other →
  noEmptySequence current → noEmptySequence other →
  diff current other = None ↔ ∀ v, sameContributions current other v.
Proof.
  intros Hc Ho Hnec Hneo.
  rewrite diff_None_iff.
  change (diffRemoved current other) with (diffAdded other current).
  rewrite !diffAdded_nil, diffChanged_nil by (done || apply Hc || apply Ho).
  unfold sameContributions. split.
  - intros (Ha & Hch & Hr) v. split; [|apply Hch].
    intros e. split; [apply Hr|apply Ha].
  - intros Hall. split_and!.
    + intros v e. by apply (Hall v).
    + intros v. by apply (Hall v).
    + intros v e. by apply (Hall v).
Qed.

(** X13: what "no diff" means.  For merged collections, [diff] answers
    [undefined] exactly when, for every variable, the same extensions
    contribute on both sides and the two mutators of each extension have
    the same type, value and workspace folder index. *)
Theorem diff_undefined_iff_same_contributions current other :
  MergedOk current → MergedOk other →
  noEmptySequence current → noEmptySequence other →
  diff current other = None ↔ ∀ v, sameContributions current other v.
Proof. apply diff_None_sameContributions. Qed.

(** X14: a change is seen from both sides: for merged collections,
    [current.diff(other)] is [undefined] exactly when [other.diff(current)]
    is. *)
Theorem diff_undefined_both_ways current other :
  MergedOk current → MergedOk other →
  noEmptySequence current → noEmptySequence other →
  diff current other = None ↔ diff other current = None.
Proof.
  intros Hc Ho Hnec Hneo. rewrite !diff_None_sameContributions by done.
  unfold sameContributions.
  split; intros Hall v; destruct (Hall v) as [Hexts Hsame]; split.
  - intros e. by rewrite Hexts.
  - intros m m' Hm Hm' Hext. rewrite differs_sym. by apply Hsame.
  - intros e. by rewrite Hexts.
  - intros m m' Hm Hm' Hext. rewrite differs_sym. by apply Hsame.
Qed.

Lemma fold_set_rebuild (l acc : VariableMap) :
  NoDup (JsMap.keys (acc ++ l)) →
  fold_left (fun acc '(variable, ms) => setIfDefined acc variable (Some ms))
    l acc
  = acc ++ l.
Proof.
  revert acc. induction l as [|[v ms] l IH]; intros acc Hnd; simpl;
    [by rewrite app_nil_r|].
  assert (v ∉ JsMap.keys acc) as Hfresh.
  { unfold JsMap.keys in *. rewrite map_app in Hnd.
    apply NoDup_app in Hnd as (_ & Hdisj & _). intros Hin.
    apply (Hdisj v Hin). apply elem_of_cons. by left. }
  rewrite set_notin by done. rewrite IH; [by rewrite <- app_assoc|].
  by rewrite <- app_assoc.
Qed.

(** X15: against the empty merged collection everything is reported: the
    whole of [X] is removed in [X.diff(empty)] and added in
    [empty.diff(X)], in the order of [X], and the other maps are empty. *)
Theorem diff_with_empty (X : VariableMap) :
  X ≠ [] → NoDup (JsMap.keys X) →
  diff X [] = Some {| added := []; changed := []; removed := X |}
  ∧ diff [] X = Some {| added := X; changed := []; removed := [] |}.
Proof.
  intros Hne Hnd.
  assert (diffRemoved X [] = X) as Hr.
  { exact (fold_set_rebuild X [] Hnd). }
  assert (diffAdded [] X = X) as Ha by exact Hr.
  assert (diffChanged X [] = []) as Hc.
  { unfold diffChanged.
    apply (fold_setIfDefined_unchanged
             (fun variable ms =>
                getChangedMutatorsFromArray ms (JsMap.get [] variable))).
    done. }
  unfold diff. rewrite Hr, Ha, Hc.
  destruct X as [|e X]; [done|]. done.
Qed.

Lemma diff_with_empty_witness :
  diff (mergedVariableMap prependThenAppend None) []
  = Some {| added := [];
            changed := [];
            removed := mergedVariableMap prependThenAppend None |}.
Proof.
  refine (proj1 (diff_with_empty (mergedVariableMap prependThenAppend None)
                   _ _)).
  - discriminate.
  - apply NoDup_singleton.
Defined.

Lemma prependThenAppend_ok : CollectionsOk prependThenAppend.
Proof.
  split.
  - apply (bool_decide_unpack (NoDup ["ext.a"; "ext.b"])). vm_compute. exact I.
  - intros c Hc. apply elem_of_cons in Hc as [->|Hc];
      [apply NoDup_singleton|].
    apply list_elem_of_singleton in Hc as ->. apply NoDup_singleton.
Qed.

Lemma appendThenReplace_ok : CollectionsOk appendThenReplace.
Proof.
  split.
  - apply (bool_decide_unpack (NoDup ["ext.a"; "ext.b"])). vm_compute. exact I.
  - intros c Hc. apply elem_of_cons in Hc as [->|Hc];
      [apply NoDup_singleton|].
    apply list_elem_of_singleton in Hc as ->. apply NoDup_singleton.
Qed.

Lemma merged_noEmptySequence collections owningWorkspace :
  noEmptySequence (mergedVariableMap collections owningWorkspace).
Proof. intros v seq. apply merged_nonempty. Qed.

Lemma diff_undefined_iff_same_contributions_witness :
  diff (mergedVariableMap prependThenAppend None)
       (mergedVariableMap appendThenReplace None) = None
  ↔ ∀ v, sameContributions (mergedVariableMap prependThenAppend None)
           (mergedVariableMap appendThenReplace None) v.
Proof.
  apply diff_undefined_iff_same_contributions.
  - apply merged_MergedOk, prependThenAppend_ok.
  - apply merged_MergedOk, appendThenReplace_ok.
  - apply merged_noEmptySequence.
  - apply merged_noEmptySequence.
Defined.

Lemma diff_undefined_both_ways_witness :
  diff (mergedVariableMap prependThenAppend None)
       (mergedVariableMap appendThenReplace None) = None
  ↔ diff (mergedVariableMap appendThenReplace None)
         (mergedVariableMap prependThenAppend None) = None.
Proof.
  apply diff_undefined_both_ways.
  - apply merged_MergedOk, prependThenAppend_ok.
  - apply merged_MergedOk, appendThenReplace_ok.
  - apply merged_noEmptySequence.
  - apply merged_noEmptySequence.
Defined.

Lemma get_reverseSequences (X : VariableMap) v :
  JsMap.get (reverseSequences X) v = @rev _ <$> JsMap.get X v.
Proof.
  unfold reverseSequences. induction X as [|[k s] X IH]; simpl; [done|].
  by destruct (decide (v = k)).
Qed.

Lemma seqOf_reverseSequences (X : VariableMap) v :
  seqOf (reverseSequences X) v = rev (seqOf X v).
Proof.
  unfold seqOf. rewrite get_reverseSequences.
  by destruct (JsMap.get X v).
Qed.

Lemma keys_reverseSequences (X : VariableMap) :
  JsMap.keys (reverseSequences X) = JsMap.keys X.
Proof.
  unfold reverseSequences, JsMap.keys. rewrite map_map.
  apply map_ext. by intros [k s].
Qed.

Lemma MergedOk_seqOf (X : VariableMap) v :
  MergedOk X → NoDup (map Owned.extensionIdentifier (seqOf X v)).
Proof.
  intros [_ Hexts]. unfold seqOf.
  destruct (JsMap.get X v) as [s|] eqn:Hget; [|constructor].
  apply (Hexts (v, s)). by apply get_elem_of.
Qed.

Lemma elem_of_List_rev {A : Type} (l : list A) x : x ∈ rev l ↔ x ∈ l.
Proof. by rewrite !list_elem_of_In, <- in_rev. Qed.

Lemma reverseSequences_MergedOk (X : VariableMap) :
  MergedOk X → MergedOk (reverseSequences X).
Proof.
  intros [Hkeys Hexts]. split; [by rewrite keys_reverseSequences|].
  intros e He. unfold reverseSequences in He.
  apply list_elem_of_fmap in He as (e0 & -> & He0). simpl.
  rewrite map_rev. apply NoDup_ListNoDup, List.NoDup_rev, NoDup_ListNoDup.
  by apply Hexts.
Qed.

Lemma reverseSequences_noEmpty (X : VariableMap) :
  noEmptySequence X → noEmptySequence (reverseSequences X).
Proof.
  intros Hne v seq. rewrite get_reverseSequences.
  destruct (JsMap.get X v) as [s|] eqn:Hget; [|done].
  simpl. intros [= <-] Hrev. apply (Hne v s Hget).
  apply (f_equal (@rev _)) in Hrev. by rewrite rev_involutive in Hrev.
Qed.

(** X16: [diff] does not look at the order of a sequence: a merged
    collection and the same collection with every sequence reversed have no
    diff. *)
Theorem diff_ignores_order (X : VariableMap) :
  MergedOk X → noEmptySequence X →
  diff X (reverseSequences X) = None.
Proof.
  intros Hok Hne.
  apply diff_None_sameContributions;
    [done|by apply reverseSequences_MergedOk|done
    |by apply reverseSequences_noEmpty|].
  intros v. unfold sameContributions. rewrite seqOf_reverseSequences. split.
  - intros e. by rewrite map_rev, elem_of_List_rev.
  - intros m m' Hm Hm' Hext. apply (proj1 (elem_of_List_rev _ _)) in Hm'.
    assert (m = m') as ->.
    { apply (NoDup_fmap_eq Owned.extensionIdentifier (seqOf X v));
        [by apply MergedOk_seqOf|done..]. }
    apply differs_self.
Qed.

Lemma diff_ignores_order_witness :
  diff (mergedVariableMap prependThenAppend None)
       (reverseSequences (mergedVariableMap prependThenAppend None))
  = None.
Proof.
  apply diff_ignores_order.
  - apply merged_MergedOk, prependThenAppend_ok.
  - apply merged_noEmptySequence.
Defined.

(** * The decorations overview ruler *)

(** ** The lanes *)










(** ** The span of a decoration *)

(** X19: the span handed to the paint queue.  A span at least as high as
    the minimal height is kept.  A lower one is replaced by a span of twice
    half the minimal height, and when the canvas is at least that high the
    new span lies inside the canvas. *)
Theorem decorationSpan_min_height (minDecorationHeight canvasHeight y1 y2 : Z) :
  (0 <= minDecorationHeight)%Z →
  let span := decorationSpan minDecorationHeight canvasHeight y1 y2 in
  ((minDecorationHeight <= y2 - y1)%Z → span = (y1, y2))
  ∧ ((y2 - y1 < minDecorationHeight)%Z →
     (snd span - fst span = 2 * Z.quot minDecorationHeight 2)%Z
     ∧ (minDecorationHeight - 1 <= snd span - fst span
        <= minDecorationHeight)%Z
     ∧ ((2 * Z.quot minDecorationHeight 2 <= canvasHeight)%Z →
        (0 <= fst span ∧ snd span <= canvasHeight)%Z)).
Proof.
  intros Hmin. unfold decorationSpan. simpl.
  pose proof (Z.quot_rem' minDecorationHeight 2) as Hqr.
  pose proof (Z.rem_bound_pos minDecorationHeight 2 Hmin) as Hrem.
  set (half := Z.quot minDecorationHeight 2) in *.
  set (center := Z.quot (y1 + y2) 2) in *.
  split.
  - intros Hhigh. rewrite (proj2 (Z.ltb_ge _ _)) by lia. done.
  - intros Hlow. rewrite (proj2 (Z.ltb_lt _ _)) by lia. simpl.
    destruct (center <? half)%Z eqn:Hc; [|destruct (canvasHeight <? _)%Z eqn:Hh];
      simpl; repeat split; lia.
Qed.

Lemma decorationSpan_min_height_witness :
  decorationSpan 6 100 98 99 = (94, 100)%Z
  ∧ (0 <= 94 ∧ 100 <= 100)%Z.
Proof.
  pose proof (decorationSpan_min_height 6 100 98 99 ltac:(lia)) as [_ Hlow].
  destruct (Hlow ltac:(lia)) as (_ & _ & Hinside).
  split; [reflexivity|]. apply Hinside. vm_compute. discriminate.
Defined.

(** ** The paint queue *)

Lemma swap_remove_Permutation {A : Type} (l0 : list A) (i : nat) r x :
  l0 !! i = Some r → l0 ++ [x] ≡ₚ r :: <[i := x]> l0.
Proof.
  intros Hi.
  rewrite (insert_take_drop l0 i x) by (by eapply lookup_lt_Some).
  rewrite <- (take_drop_middle l0 i r Hi) at 1.
  rewrite <- app_assoc. simpl.
  etrans; [symmetry; apply Permutation_middle|].
  apply perm_skip, Permutation_app_head.
  symmetry. apply Permutation_cons_append.
Qed.

Section Scan.

Variables (color : string) (y1 : Z) (lane : nat).

Lemma scanRequests_spec fuel :
  ∀ Q i len,
    len = length (PaintQueue.req Q) → (i <= len)%nat → (len - i <= fuel)%nat →
    ∃ Q' res removed,
      scanRequests fuel Q color y1 lane i len = Some (Q', res)
      ∧ PaintQueue.x Q' = PaintQueue.x Q ∧ PaintQueue.w Q' = PaintQueue.w Q
      ∧ PaintQueue.pool Q' = PaintQueue.pool Q ++ removed
      ∧ PaintQueue.ctx Q'
        = PaintQueue.ctx Q
          ++ flat_map (flushCalls (PaintQueue.x Q) (PaintQueue.w Q)) removed
      ∧ Forall (expiredAt y1) removed
      ∧ PaintQueue.req Q ≡ₚ removed ++ PaintQueue.req Q'
      ∧ take i (PaintQueue.req Q') = take i (PaintQueue.req Q)
      ∧ match res with
        | Some j =>
            ∃ r, PaintQueue.req Q' !! j = Some r
                 ∧ sameColourAndLane color lane r ∧ ¬ expiredAt y1 r
        | None =>
            Forall (fun r => ¬ expiredAt y1 r
                             ∧ ¬ sameColourAndLane color lane r)
              (drop i (PaintQueue.req Q'))
        end.
Proof.
  induction fuel as [|fuel IH]; intros Q i len Hlen Hi Hfuel.
  - assert (i = len) as -> by lia.
    exists Q, None, []. simpl. rewrite Nat.ltb_irrefl. simpl.
    rewrite !app_nil_r. split_and!; try done.
    rewrite Hlen, drop_all. constructor.
  - simpl. destruct (i <? len)%nat eqn:Hlt; simpl.
    2:{ apply Nat.ltb_ge in Hlt. assert (i = len) as -> by lia.
        exists Q, None, []. rewrite !app_nil_r. split_and!; try done.
        rewrite Hlen, drop_all. constructor. }
    apply Nat.ltb_lt in Hlt.
    destruct (PaintQueue.req Q !! i) as [r|] eqn:Hr.
    2:{ apply lookup_ge_None in Hr. lia. }
    destruct (PaintRequest.y2 r <? y1)%Z eqn:Hexp.
    + apply Z.ltb_lt in Hexp.
      destruct (PaintQueue.req Q) as [|x l0 _] eqn:Hreq using rev_ind;
        [simpl in Hlen; lia|].
      rewrite length_app in Hlen. simpl in Hlen.
      rewrite removelast_last, last_snoc.
      destruct (i + 1 =? len)%nat eqn:Hlast.
      * apply Nat.eqb_eq in Hlast.
        assert (i = length l0) as Hil by lia.
        assert (r = x) as ->.
        { rewrite Hil, lookup_app_r, Nat.sub_diag in Hr by lia.
          by injection Hr. }
        eexists _, None, [x]. split; [reflexivity|]. simpl.
        split_and!; try done.
        -- by repeat constructor.
        -- apply Permutation_app_comm.
        -- rewrite Hil, take_app_length. by rewrite firstn_all.
        -- rewrite Hil, drop_all. constructor.
      * apply Nat.eqb_neq in Hlast.
        assert (i < length l0)%nat as Hil by lia.
        rewrite (proj2 (Nat.ltb_lt _ _) Hil).
        rewrite lookup_app_l in Hr by done.
        destruct (IH (retire (paintQueueFlush Q r) (<[i := x]> l0) r) i
                    (len - 1)%nat)
          as (Q' & res & removed & Hscan & Hx & Hw & Hpool & Hctx & Hall
              & Hperm & Htake & Hres);
          [simpl; rewrite length_insert; lia|lia|lia|].
        exists Q', res, (r :: removed). simpl in *.
        split; [exact Hscan|].
        rewrite Hpool, Hctx, <- !app_assoc. simpl.
        split_and!; try done.
        -- by constructor.
        -- rewrite (swap_remove_Permutation l0 i r x Hr).
           by constructor.
        -- rewrite Htake, take_insert_ge by lia.
           by rewrite take_app_le by lia.
    + apply Z.ltb_ge in Hexp.
      destruct ((PaintRequest.lane r =? lane)%nat
                && bool_decide (PaintRequest.color r = color)) eqn:Hmatch.
      * apply andb_prop in Hmatch as [Hlane Hcolor].
        apply Nat.eqb_eq in Hlane. apply bool_decide_eq_true in Hcolor.
        exists Q, (Some i), []. rewrite !app_nil_r.
        split_and!; try done.
        exists r. split_and!; [done|done|unfold expiredAt; lia].
      * destruct (IH Q (S i) len)
          as (Q' & res & removed & Hscan & Hx & Hw & Hpool & Hctx & Hall
              & Hperm & Htake & Hres); [done|lia|lia|].
        exists Q', res, removed. split; [exact Hscan|].
        split_and!; try done.
        -- apply (f_equal (take i)) in Htake.
           by rewrite !take_take, Nat.min_l in Htake by lia.
        -- destruct res as [j|]; [done|].
           assert (PaintQueue.req Q' !! i = Some r) as Hr'.
           { rewrite <- (lookup_take_lt _ (S i)) by lia.
             rewrite Htake, lookup_take_lt by lia. done. }
           rewrite (drop_S _ _ _ Hr'). constructor; [|done].
           split; [unfold expiredAt; lia|].
           intros [Hlane Hcolor].
           rewrite <- Nat.eqb_eq in Hlane.
           rewrite <- (bool_decide_eq_true (PaintRequest.color r = color))
             in Hcolor.
           by rewrite Hlane, Hcolor in Hmatch.
Qed.

End Scan.

Lemma paintQueueAccept_spec Q color y1 y2 lane :
  ∃ Q' removed kept,
    paintQueueAccept Q color y1 y2 lane = Some Q'
    ∧ PaintQueue.x Q' = PaintQueue.x Q ∧ PaintQueue.w Q' = PaintQueue.w Q
    ∧ PaintQueue.ctx Q'
      = PaintQueue.ctx Q
        ++ flat_map (flushCalls (PaintQueue.x Q) (PaintQueue.w Q)) removed
    ∧ Forall (expiredAt y1) removed
    ∧ PaintQueue.req Q ≡ₚ removed ++ kept
    ∧ ((Forall (fun r => ¬ expiredAt y1 r ∧ ¬ sameColourAndLane color lane r)
          kept
        ∧ PaintQueue.req Q' = kept ++ [PaintRequest.mk color y1 y2 lane])
       ∨ ∃ j r, kept !! j = Some r
                ∧ sameColourAndLane color lane r ∧ ¬ expiredAt y1 r
                ∧ PaintQueue.req Q' = alter (withY2 y2) j kept).
Proof.
  destruct (scanRequests_spec color y1 lane (length (PaintQueue.req Q)) Q 0
              (length (PaintQueue.req Q)))
    as (Q1 & res & removed & Hscan & Hx & Hw & Hpool & Hctx & Hall & Hperm
        & _ & Hres); [done|lia|lia|].
  unfold paintQueueAccept. rewrite Hscan.
  destruct res as [j|].
  - destruct Hres as (r & Hj & Hsame & Hlive).
    eexists _, removed, (PaintQueue.req Q1). split; [reflexivity|]. simpl.
    split_and!; try done. right. by exists j, r.
  - eexists _, removed, (PaintQueue.req Q1). split; [reflexivity|]. simpl.
    split_and!; try done. left. by rewrite drop_0 in Hres.
Qed.

(** X20: [paintQueueAccept] always completes: the loop never reads outside
    [Q.req] and stops.  On the canvas it only adds, after the calls already
    made, the two calls of [paintQueueFlush] for requests of the queue that
    end above [y1], each request at most once; the lanes are not touched. *)
Theorem paintQueueAccept_paints_expired Q color y1 y2 lane :
  ∃ Q' removed,
    paintQueueAccept Q color y1 y2 lane = Some Q'
    ∧ PaintQueue.x Q' = PaintQueue.x Q ∧ PaintQueue.w Q' = PaintQueue.w Q
    ∧ removed ⊆+ PaintQueue.req Q
    ∧ Forall (expiredAt y1) removed
    ∧ PaintQueue.ctx Q'
      = PaintQueue.ctx Q
        ++ flat_map (flushCalls (PaintQueue.x Q) (PaintQueue.w Q)) removed.
Proof.
  destruct (paintQueueAccept_spec Q color y1 y2 lane)
    as (Q' & removed & kept & Hacc & Hx & Hw & Hctx & Hall & Hperm & _).
  exists Q', removed. split_and!; try done.
  rewrite Hperm. by apply submseteq_inserts_r.
Qed.

(** X21: no request is lost.  The requests of the queue split into those
    that are painted and retired, which all end above [y1], and those that
    stay.  If the loop meets a request of the colour and lane asked for that
    does not end above [y1], that request gets [y2] as its end and nothing
    is queued; otherwise no request that stays has that colour and lane or
    ends above [y1], and a new request is queued last. *)
Theorem paintQueueAccept_queue Q color y1 y2 lane Q' :
  paintQueueAccept Q color y1 y2 lane = Some Q' →
  ∃ removed kept,
    PaintQueue.req Q ≡ₚ removed ++ kept
    ∧ Forall (expiredAt y1) removed
    ∧ ((Forall (fun r => ¬ expiredAt y1 r ∧ ¬ sameColourAndLane color lane r)
          kept
        ∧ PaintQueue.req Q' = kept ++ [PaintRequest.mk color y1 y2 lane])
       ∨ ∃ j r, kept !! j = Some r
                ∧ sameColourAndLane color lane r ∧ ¬ expiredAt y1 r
                ∧ PaintQueue.req Q' = alter (withY2 y2) j kept).
Proof.
  intros Hacc.
  destruct (paintQueueAccept_spec Q color y1 y2 lane)
    as (Q1 & removed & kept & Hacc1 & _ & _ & _ & Hall & Hperm & Hreq).
  rewrite Hacc in Hacc1. injection Hacc1 as <-.
  by exists removed, kept.
Qed.

Lemma paintQueueAccept_queue_witness :
  ∃ removed kept,
    PaintQueue.req exampleQueue ≡ₚ removed ++ kept
    ∧ Forall (expiredAt 10) removed
    ∧ ((Forall (fun r => ¬ expiredAt 10 r ∧ ¬ sameColourAndLane "red" 1 r)
          kept
        ∧ [PaintRequest.mk "red" 8 30 1]
          = kept ++ [PaintRequest.mk "red" 10 30 1])
       ∨ ∃ j r, kept !! j = Some r
                ∧ sameColourAndLane "red" 1 r ∧ ¬ expiredAt 10 r
                ∧ [PaintRequest.mk "red" 8 30 1] = alter (withY2 30) j kept).
Proof.
  apply (paintQueueAccept_queue exampleQueue "red" 10 30 1
           (PaintQueue.mk
              (flushCalls (PaintQueue.x exampleQueue)
                 (PaintQueue.w exampleQueue) (PaintRequest.mk "blue" 0 5 4))
              (PaintQueue.x exampleQueue) (PaintQueue.w exampleQueue)
              [PaintRequest.mk "red" 8 30 1]
              [PaintRequest.mk "blue" 0 5 4])).
  vm_compute. reflexivity.
Defined.

Lemma map_alter_same {A B : Type} (g : A → B) (f : A → A) (l : list A) i :
  (∀ a, g (f a) = g a) → map g (alter f i l) = map g l.
Proof.
  intros Hsame. revert i. induction l as [|a l IH]; intros [|i]; simpl;
    [done|done|by rewrite Hsame|f_equal; apply IH].
Qed.

(** X22: the queue holds at most one request per colour and lane, and this
    is kept; after the call it holds the request of the colour and lane
    asked for, and that request ends at [y2]. *)
Theorem paintQueueAccept_one_per_colour_and_lane Q color y1 y2 lane Q' :
  NoDup (map paintKey (PaintQueue.req Q)) →
  paintQueueAccept Q color y1 y2 lane = Some Q' →
  NoDup (map paintKey (PaintQueue.req Q'))
  ∧ ∃ r, r ∈ PaintQueue.req Q' ∧ sameColourAndLane color lane r
         ∧ PaintRequest.y2 r = y2.
Proof.
  intros Hnd Hacc.
  destruct (paintQueueAccept_spec Q color y1 y2 lane)
    as (Q1 & removed & kept & Hacc1 & _ & _ & _ & Hall & Hperm & Hreq).
  rewrite Hacc in Hacc1. injection Hacc1 as <-.
  assert (NoDup (map paintKey kept)) as Hkept.
  { rewrite Hperm, map_app in Hnd. by apply NoDup_app in Hnd as (_ & _ & ?). }
  destruct Hreq as [[Hnone ->]|(j & r & Hj & Hsame & Hlive & ->)].
  - split.
    + rewrite map_app. simpl. apply NoDup_app. split_and!;
        [done| |apply NoDup_singleton].
      intros k Hk Hk'. apply list_elem_of_singleton in Hk' as ->.
      apply list_elem_of_fmap in Hk as (r & Hkey & Hr).
      rewrite Forall_forall in Hnone. destruct (Hnone r Hr) as [_ Hdiff].
      apply Hdiff. unfold paintKey in Hkey. simpl in Hkey.
      injection Hkey as Hl Hc. by split.
    + exists (PaintRequest.mk color y1 y2 lane). split_and!; [|done..].
      apply elem_of_app. right. by apply list_elem_of_singleton.
  - split.
    + by rewrite map_alter_same.
    + exists (withY2 y2 r). split_and!; [|done..].
      apply list_elem_of_lookup. exists j.
      by rewrite list_lookup_alter_eq, Hj.
Qed.

Lemma paintQueueAccept_one_per_colour_and_lane_witness :
  NoDup (map paintKey [PaintRequest.mk "red" 8 30 1])
  ∧ ∃ r, r ∈ [PaintRequest.mk "red" 8 30 1] ∧ sameColourAndLane "red" 1 r
         ∧ PaintRequest.y2 r = 30%Z.
Proof.
  apply (paintQueueAccept_one_per_colour_and_lane exampleQueue "red" 10 30 1
           (PaintQueue.mk
              (flushCalls (PaintQueue.x exampleQueue)
                 (PaintQueue.w exampleQueue) (PaintRequest.mk "blue" 0 5 4))
              (PaintQueue.x exampleQueue) (PaintQueue.w exampleQueue)
              [PaintRequest.mk "red" 8 30 1]
              [PaintRequest.mk "blue" 0 5 4])).
  - apply (bool_decide_unpack (NoDup [(4%nat, "blue"); (1%nat, "red")])).
    vm_compute. exact I.
  - vm_compute. reflexivity.
Defined.

(** ** The decoration loop *)

Lemma fillRects_app a b : fillRects (a ++ b) = (fillRects a + fillRects b)%nat.
Proof. unfold fillRects. by rewrite List.filter_app, length_app. Qed.

Lemma fillRects_flushes x w l :
  fillRects (flat_map (flushCalls x w) l) = length l.
Proof.
  induction l as [|r l IH]; [done|].
  change (flat_map (flushCalls x w) (r :: l))
    with (flushCalls x w r ++ flat_map (flushCalls x w) l).
  rewrite fillRects_app, IH. done.
Qed.

Lemma paintQueueAccept_count Q color y1 y2 lane :
  ∃ Q',
    paintQueueAccept Q color y1 y2 lane = Some Q'
    ∧ PaintQueue.x Q' = PaintQueue.x Q ∧ PaintQueue.w Q' = PaintQueue.w Q
    ∧ PaintQueue.ctx Q `prefix_of` PaintQueue.ctx Q'
    ∧ (fillRects (PaintQueue.ctx Q') + length (PaintQueue.req Q')
       <= fillRects (PaintQueue.ctx Q) + length (PaintQueue.req Q) + 1)%nat.
Proof.
  destruct (paintQueueAccept_spec Q color y1 y2 lane)
    as (Q' & removed & kept & Hacc & Hx & Hw & Hctx & _ & Hperm & Hreq).
  exists Q'. split_and!; try done.
  - rewrite Hctx. by apply prefix_app_r.
  - rewrite Hctx, fillRects_app, fillRects_flushes, Hperm, length_app.
    destruct Hreq as [[_ ->]|(j & r & _ & _ & _ & ->)].
    + rewrite length_app. simpl. lia.
    + rewrite length_alter. lia.
Qed.

Lemma acceptDecoration_count minDecorationHeight canvasHeight Q d :
  ∃ Q',
    acceptDecoration minDecorationHeight canvasHeight Q d = Some Q'
    ∧ PaintQueue.x Q' = PaintQueue.x Q ∧ PaintQueue.w Q' = PaintQueue.w Q
    ∧ PaintQueue.ctx Q `prefix_of` PaintQueue.ctx Q'
    ∧ (fillRects (PaintQueue.ctx Q') + length (PaintQueue.req Q')
       <= fillRects (PaintQueue.ctx Q) + length (PaintQueue.req Q) + 1)%nat.
Proof.
  unfold acceptDecoration. destruct (Placed.lane d =? 0)%nat.
  - exists Q. split_and!; try done. lia.
  - apply paintQueueAccept_count.
Qed.

Lemma acceptDecorations_count minDecorationHeight canvasHeight ds :
  ∀ Q,
    ∃ Q',
      foldl
        (fun Q d =>
           match Q with
           | Some Q => acceptDecoration minDecorationHeight canvasHeight Q d
           | None => None
           end)
        (Some Q) ds = Some Q'
      ∧ PaintQueue.x Q' = PaintQueue.x Q ∧ PaintQueue.w Q' = PaintQueue.w Q
      ∧ PaintQueue.ctx Q `prefix_of` PaintQueue.ctx Q'
      ∧ (fillRects (PaintQueue.ctx Q') + length (PaintQueue.req Q')
         <= fillRects (PaintQueue.ctx Q) + length (PaintQueue.req Q)
            + length ds)%nat.
Proof.
  induction ds as [|d ds IH]; intros Q; simpl.
  - exists Q. split_and!; try done. lia.
  - destruct (acceptDecoration_count minDecorationHeight canvasHeight Q d)
      as (Q1 & -> & Hx1 & Hw1 & Hpre1 & Hcount1).
    destruct (IH Q1) as (Q' & Hfold & Hx & Hw & Hpre & Hcount).
    exists Q'. split_and!; [done|congruence|congruence|by etrans|lia].
Qed.

Lemma flushAll_ctx l :
  ∀ Q,
    PaintQueue.ctx (foldl paintQueueFlush Q l)
    = PaintQueue.ctx Q
      ++ flat_map (flushCalls (PaintQueue.x Q) (PaintQueue.w Q)) l.
Proof.
  induction l as [|r l IH]; intros Q; simpl; [by rewrite app_nil_r|].
  rewrite IH. simpl. by rewrite <- app_assoc.
Qed.

(** X23: painting the decorations always completes, keeps what is already
    on the canvas, and makes at most one [fillRect] call per decoration:
    decorations that are merged into one request are painted together. *)
Theorem paintDecorations_one_rectangle_each
    (minDecorationHeight canvasHeight : Z) ctx x w decorations :
  ∃ Q',
    paintDecorations minDecorationHeight canvasHeight ctx x w decorations
    = Some Q'
    ∧ ctx `prefix_of` PaintQueue.ctx Q'
    ∧ (fillRects (PaintQueue.ctx Q') <= fillRects ctx + length decorations)%nat.
Proof.
  unfold paintDecorations.
  destruct (acceptDecorations_count minDecorationHeight canvasHeight
              decorations (PaintQueue.mk ctx x w [] []))
    as (Q & -> & _ & _ & Hpre & Hcount).
  eexists. split; [reflexivity|]. rewrite flushAll_ctx. simpl in *. split.
  - by apply prefix_app_r.
  - rewrite fillRects_app, fillRects_flushes. lia.
Qed.

(** ** The colour cache *)

(** X24: the colour of a decoration is resolved once.  After a call that
    returns a non-empty colour, every later call returns that colour and
    leaves the options as they are, whatever the theme is by then; once
    [_resolvedColor] is reset, as [onThemeChanged] does, the next call
    resolves the colour against the theme it is given. *)
Theorem resolveColor_caches {Color : Type} (colorToString : Color → string)
    (transparent : Color) opts (theme theme' : ITheme) :
  (snd (resolveColor colorToString transparent opts theme) ≠ "" →
   resolveColor colorToString transparent
     (fst (resolveColor colorToString transparent opts theme)) theme'
   = resolveColor colorToString transparent opts theme)
  ∧ snd (resolveColor colorToString transparent (invalidate opts) theme')
    = resolveRulerColor colorToString transparent (colorFor opts theme') theme'.
Proof.
  split; [|done].
  unfold resolveColor.
  destruct (_resolvedColor opts) as [cached|] eqn:Hcache.
  - destruct (decide (cached = "")) as [->|Hne]; simpl.
    + intros Hc. rewrite decide_False by done. done.
    + intros _. rewrite Hcache, decide_False by done. done.
  - simpl. intros Hc. rewrite decide_False by done. done.
Qed.

Lemma resolveColor_caches_witness :
  resolveColor id "transparent"
    (fst (resolveColor id "transparent" exampleOptions lightTheme)) darkTheme
  = resolveColor id "transparent" exampleOptions lightTheme.
Proof.
  apply (proj1 (resolveColor_caches id "transparent" exampleOptions
                  lightTheme darkTheme)).
  vm_compute. discriminate.
Defined.
